(** * The capability-model parser of the IoT Central device client

    A shallow embedding of [parse] (the capability-model parser) and of
    the call-style declarations of [IIoTCClient], [IIoTCProperty] and
    [IIoTCCommand], with the properties the specification states about
    them.

    The document is an already-parsed JSON object of the shape its type
    promises: [implements] and [schema.contents] are arrays of objects,
    and names, types and ids are strings.  Every member [parse] reads may
    be absent, except the name of an item of [schema.contents], which is
    handed to the descriptor as it is.

    The result object [res = {}] of [parse] is used as a map from
    interface names to descriptors.  It is modelled by the finite map of
    what [res[name]] holds after the assignments [res[name] = cInf]
    ([gmap string _]).  A plain object treats one name specially:
    [res["__proto__"] = cInf] sets the prototype of [res] and creates no
    own property, and [res["__proto__"]] reads the prototype back.  So
    the binding of ["__proto__"] in the finite map stands for the
    prototype, and the keys of the object ([own_keys]) are the other
    names bound. *)

From stdpp Require Import base strings gmap list option.

(** * Completions: a call either returns normally or throws *)

Inductive JSError : Type :=
| TypeError.

Inductive completion (A : Type) : Type :=
| Normal (a : A)
| Throw (e : JSError).
Arguments Normal {A} a.
Arguments Throw {A} e.

#[global] Instance completion_ret : MRet completion := λ A a, Normal a.
#[global] Instance completion_bind : MBind completion := λ A B f m,
  match m with
  | Normal a => f a
  | Throw e => Throw e
  end.

(** [Array.prototype.forEach] with a callback that updates an accumulator
    (the object the callback closes over); an exception thrown by the
    callback ends the walk and propagates. *)
Fixpoint forEach {A Acc : Type} (f : A → Acc → completion Acc)
    (l : list A) (s : Acc) : completion Acc :=
  match l with
  | [] => Normal s
  | x :: l' => s' ← f x s; forEach f l' s'
  end.

(** * The input document *)

(** JavaScript truthiness of an optional string: [undefined] and the
    empty string are falsy. *)
Definition truthy (v : option string) : bool :=
  match v with
  | Some s => negb (String.eqb s EmptyString)
  | None => false
  end.

(** [v === lit] for an optional string and a string literal. *)
Definition strict_eq (v : option string) (lit : string) : bool :=
  bool_decide (v = Some lit).

(** [s.length > 0] *)
Definition length_gt_0 (s : string) : bool := bool_decide (0 < String.length s).

(** Modelled from the spec: the type declarations of [../types/capabilities]
    ([CapabilityModel], [InterfaceMap]) are not among the sources.  The
    document is the already-parsed JSON object the parser walks; the
    records keep the members [parse] reads, each optional member as an
    [option] ([None] is [undefined]). *)
Record ContentItem : Type := {
  item_type : option string;        (* item["@type"] *)
  item_name : string;               (* item.name *)
  item_writable : option bool       (* item.writable *)
}.

Record InterfaceSchema : Type := {
  contents : option (list ContentItem)   (* schema.contents *)
}.

Record InterfaceInstance : Type := {
  interf_type : option string;      (* interf["@type"] *)
  interf_name : option string;      (* interf.name *)
  interf_id : option string;        (* interf["@id"] *)
  schema : option InterfaceSchema   (* interf.schema *)
}.

Record CapabilityModel : Type := {
  implements : option (list InterfaceInstance)
}.

(** Callbacks are opaque to [parse], which only hands them to the
    constructor of the descriptor: a callback is the identity of a
    function object, [None] an omitted argument. *)
Definition Callback : Type := option nat.

(** * The interface descriptor *)

Module CommonInterface.

(** Modelled from the spec: the class [CommonInterface] of
    [../models/commonInterface] is not among the sources.  The spec
    describes it as an interface descriptor exposing typed collections
    of property/command/telemetry names; [parse] constructs it from the
    interface name, the interface id and the two callbacks, and adds
    names through [addProperty], [addCommand] and [addTelemetry].  Each
    collection keeps the names in the order they were added; the spec
    says nothing about the [writable] flag, which is not recorded. *)
Record t : Type := mk {
  name : string;
  id : option string;
  propertyCallback : Callback;
  commandCallback : Callback;
  properties : list string;
  commands : list string;
  telemetry : list string
}.

Definition new (name : string) (id : option string)
    (propertyCallback commandCallback : Callback) : t :=
  mk name id propertyCallback commandCallback [] [] [].

Definition addProperty (n : string) (writable : option bool) (c : t) : t :=
  mk (name c) (id c) (propertyCallback c) (commandCallback c)
     (properties c ++ [n]) (commands c) (telemetry c).

Definition addCommand (n : string) (c : t) : t :=
  mk (name c) (id c) (propertyCallback c) (commandCallback c)
     (properties c) (commands c ++ [n]) (telemetry c).

Definition addTelemetry (n : string) (c : t) : t :=
  mk (name c) (id c) (propertyCallback c) (commandCallback c)
     (properties c) (commands c) (telemetry c ++ [n]).

End CommonInterface.

Abbreviation InterfaceMap := (gmap string CommonInterface.t).

(** The name a plain object does not keep as a property:
    [res["__proto__"] = cInf] sets the prototype of [res]. *)
Definition proto_name : string := "__proto__".

(** The prototype an assignment gave the object, if any. *)
Definition prototype {A : Type} (res : gmap string A) : option A :=
  res !! proto_name.

(** The own keys of the object, as [Object.keys(res)] lists them. *)
Definition own_keys {A : Type} (res : gmap string A) : gset string :=
  dom res ∖ {[proto_name]}.

(** * [parse] *)

(** The callback of [items.forEach]: one item of [schema.contents]. *)
Definition parse_item (item : ContentItem) (cInf : CommonInterface.t)
  : completion CommonInterface.t :=
  if truthy (item_type item) && strict_eq (item_type item) "Property" then
    Normal (CommonInterface.addProperty (item_name item) (item_writable item) cInf)
  else if truthy (item_type item) && strict_eq (item_type item) "Command" then
    Normal (CommonInterface.addCommand (item_name item) cInf)
  else if truthy (item_type item) && strict_eq (item_type item) "Telemetry" then
    Normal (CommonInterface.addTelemetry (item_name item) cInf)
  else Normal cInf.

(** [interf.schema.contents]: reading a member of [undefined] throws. *)
Definition schema_contents (interf : InterfaceInstance)
  : completion (option (list ContentItem)) :=
  match schema interf with
  | Some sch => Normal (contents sch)
  | None => Throw TypeError
  end.

(** The callback of [capabilityModel.implements.forEach]: one entry.
    The assignment [res[interfaceName] = cInf] updates what
    [res[interfaceName]] holds; for the name ["__proto__"] that is the
    prototype of [res], not a key (see [own_keys]). *)
Definition parse_interf (propertyCallback commandCallback : Callback)
    (interf : InterfaceInstance) (res : InterfaceMap) : completion InterfaceMap :=
  if strict_eq (interf_type interf) "InterfaceInstance" then
    match interf_name interf with
    | Some interfaceName =>
        if truthy (Some interfaceName) && length_gt_0 interfaceName then
          let cInf := CommonInterface.new interfaceName (interf_id interf)
                        propertyCallback commandCallback in
          cts ← schema_contents interf;
          cInf ← match cts with
                 | Some items =>
                     if bool_decide (0 < length items)
                     then forEach parse_item items cInf
                     else Normal cInf
                 | None => Normal cInf
                 end;
          Normal (<[interfaceName := cInf]> res)
        else Normal res
    | None => Normal res
    end
  else Normal res.

Definition parse (capabilityModel : option CapabilityModel)
    (propertyCallback commandCallback : Callback) : completion InterfaceMap :=
  let res : InterfaceMap := ∅ in
  match capabilityModel with
  | Some cm =>
      match implements cm with
      | Some entries =>
          if bool_decide (0 < length entries)
          then forEach (parse_interf propertyCallback commandCallback) entries res
          else Normal res
      | None => Normal res
      end
  | None => Normal res
  end.

(** * The walk, with the visits it makes *)

(** The same code with a log of the callback invocations: [VisitEntry i]
    is the call of the [implements.forEach] callback on the entry at
    index [i], [VisitItem i j] the call of the [items.forEach] callback on
    item [j] of that entry. *)
Inductive visit : Type :=
| VisitEntry (i : nat)
| VisitItem (i j : nat).

#[global] Instance visit_eq_dec : EqDecision visit.
Proof. solve_decision. Defined.

Definition traced (A : Type) : Type := list visit * completion A.

(** [forEach] passes the element and its index to the callback. *)
Fixpoint forEach_traced {A Acc : Type} (f : nat → A → Acc → traced Acc)
    (i : nat) (l : list A) (s : Acc) : traced Acc :=
  match l with
  | [] => ([], Normal s)
  | x :: l' =>
      match f i x s with
      | (log, Normal s') =>
          let '(log', r) := forEach_traced f (S i) l' s' in (log ++ log', r)
      | (log, Throw e) => (log, Throw e)
      end
  end.

Definition parse_item_traced (i j : nat) (item : ContentItem)
    (cInf : CommonInterface.t) : traced CommonInterface.t :=
  ([VisitItem i j], parse_item item cInf).

Definition parse_interf_traced (propertyCallback commandCallback : Callback)
    (i : nat) (interf : InterfaceInstance) (res : InterfaceMap)
  : traced InterfaceMap :=
  let here := [VisitEntry i] in
  if strict_eq (interf_type interf) "InterfaceInstance" then
    match interf_name interf with
    | Some interfaceName =>
        if truthy (Some interfaceName) && length_gt_0 interfaceName then
          let cInf := CommonInterface.new interfaceName (interf_id interf)
                        propertyCallback commandCallback in
          match schema_contents interf with
          | Normal (Some items) =>
              if bool_decide (0 < length items) then
                match forEach_traced (parse_item_traced i) 0 items cInf with
                | (log, Normal cInf) =>
                    (here ++ log, Normal (<[interfaceName := cInf]> res))
                | (log, Throw e) => (here ++ log, Throw e)
                end
              else (here, Normal (<[interfaceName := cInf]> res))
          | Normal None => (here, Normal (<[interfaceName := cInf]> res))
          | Throw e => (here, Throw e)
          end
        else (here, Normal res)
    | None => (here, Normal res)
    end
  else (here, Normal res).

Definition parse_traced (capabilityModel : option CapabilityModel)
    (propertyCallback commandCallback : Callback) : traced InterfaceMap :=
  let res : InterfaceMap := ∅ in
  match capabilityModel with
  | Some cm =>
      match implements cm with
      | Some entries =>
          if bool_decide (0 < length entries)
          then forEach_traced
                 (parse_interf_traced propertyCallback commandCallback)
                 0 entries res
          else ([], Normal res)
      | None => ([], Normal res)
      end
  | None => ([], Normal res)
  end.

(** * The walk over a store of objects *)

(** [parse] once more, with the objects it touches kept in a store: the
    document is a graph of objects reached through references, the result
    map and the descriptors are objects allocated by the call, and
    [res[interfaceName] = cInf] and the [add...] methods update objects in
    place.  This is the model for what a call changes and what it depends
    on. *)
Module Heap.

Definition loc : Type := positive.

Inductive object : Type :=
| OModel (implements : option loc)
| OArray (elems : list loc)
| OInterface (type name id : option string) (schema : option loc)
| OSchema (contents : option loc)
| OItem (type : option string) (name : string) (writable : option bool)
| ODescriptor (c : CommonInterface.t)
| OResult (m : gmap string loc).

Abbreviation heap := (gmap loc object).

(** A call returns, throws, or is stuck on a reference that does not lead
    to an object of the shape the document type promises. *)
Inductive outcome (A : Type) : Type :=
| Ret (a : A)
| Raise (e : JSError)
| Stuck.
Arguments Ret {A} a.
Arguments Raise {A} e.
Arguments Stuck {A}.

Definition M (A : Type) : Type := heap → outcome A * heap.

#[global] Instance M_ret : MRet M := λ A a h, (Ret a, h).
#[global] Instance M_bind : MBind M := λ A B f m h,
  match m h with
  | (Ret a, h') => f a h'
  | (Raise e, h') => (Raise e, h')
  | (Stuck, h') => (Stuck, h')
  end.

Definition raise {A : Type} (e : JSError) : M A := λ h, (Raise e, h).
Definition stuck {A : Type} : M A := λ h, (Stuck, h).

(** [new]/[{}]: a fresh object. *)
Definition alloc (o : object) : M loc := λ h,
  let l := fresh (dom h) in (Ret l, <[l := o]> h).

Definition read (l : loc) : M object := λ h,
  match h !! l with
  | Some o => (Ret o, h)
  | None => (Stuck, h)
  end.

Definition write (l : loc) (o : object) : M unit := λ h, (Ret tt, <[l := o]> h).

Fixpoint forEach {A : Type} (f : A → M unit) (l : list A) : M unit :=
  match l with
  | [] => mret tt
  | x :: l' => _ ← f x; forEach f l'
  end.

(** A method of the descriptor object: it updates the object in place. *)
Definition method (f : CommonInterface.t → CommonInterface.t) (cInf : loc)
  : M unit :=
  o ← read cInf;
  match o with
  | ODescriptor c => write cInf (ODescriptor (f c))
  | _ => stuck
  end.

(** [res[interfaceName] = cInf]; under ["__proto__"] the member written
    is the prototype of [res] (see [own_keys]). *)
Definition set_member (res : loc) (interfaceName : string) (cInf : loc)
  : M unit :=
  o ← read res;
  match o with
  | OResult m => write res (OResult (<[interfaceName := cInf]> m))
  | _ => stuck
  end.

(** [x.forEach(f)] on a reference to an array. *)
Definition forEach_array (f : loc → M unit) (arr : loc) : M unit :=
  o ← read arr;
  match o with
  | OArray elems =>
      if bool_decide (0 < length elems) then forEach f elems else mret tt
  | _ => stuck
  end.

Definition parse_item (cInf : loc) (item : loc) : M unit :=
  o ← read item;
  match o with
  | OItem ty name writable =>
      if truthy ty && strict_eq ty "Property" then
        method (CommonInterface.addProperty name writable) cInf
      else if truthy ty && strict_eq ty "Command" then
        method (CommonInterface.addCommand name) cInf
      else if truthy ty && strict_eq ty "Telemetry" then
        method (CommonInterface.addTelemetry name) cInf
      else mret tt
  | _ => stuck
  end.

Definition parse_interf (propertyCallback commandCallback : Callback)
    (res : loc) (interf : loc) : M unit :=
  o ← read interf;
  match o with
  | OInterface ty name id sch =>
      if strict_eq ty "InterfaceInstance" then
        match name with
        | Some interfaceName =>
            if truthy (Some interfaceName) && length_gt_0 interfaceName then
              cInf ← alloc (ODescriptor
                       (CommonInterface.new interfaceName id
                          propertyCallback commandCallback));
              _ ← match sch with
                  | Some s =>
                      so ← read s;
                      match so with
                      | OSchema (Some items) =>
                          forEach_array (parse_item cInf) items
                      | OSchema None => mret tt
                      | _ => stuck
                      end
                  | None => raise TypeError
                  end;
              set_member res interfaceName cInf
            else mret tt
        | None => mret tt
        end
      else mret tt
  | _ => stuck
  end.

Definition parse (capabilityModel : option loc)
    (propertyCallback commandCallback : Callback) : M loc :=
  res ← alloc (OResult ∅);
  _ ← match capabilityModel with
      | Some cm =>
          o ← read cm;
          match o with
          | OModel (Some entries) =>
              forEach_array (parse_interf propertyCallback commandCallback res)
                entries
          | OModel None => mret tt
          | _ => stuck
          end
      | None => mret tt
      end;
  mret res.

(** ** Reading documents and results back from the store *)

Definition load_optional {A : Type} (f : loc → option A) (r : option loc)
  : option (option A) :=
  match r with
  | Some l => Some <$> f l
  | None => Some None
  end.

Definition load_array {A : Type} (f : loc → option A) (h : heap) (l : loc)
  : option (list A) :=
  match h !! l with
  | Some (OArray elems) => mapM f elems
  | _ => None
  end.

Definition load_item (h : heap) (l : loc) : option ContentItem :=
  match h !! l with
  | Some (OItem ty n w) =>
      Some {| item_type := ty; item_name := n; item_writable := w |}
  | _ => None
  end.

Definition load_schema (h : heap) (l : loc) : option InterfaceSchema :=
  match h !! l with
  | Some (OSchema cts) =>
      c ← load_optional (load_array (load_item h) h) cts;
      Some {| contents := c |}
  | _ => None
  end.

Definition load_interface (h : heap) (l : loc) : option InterfaceInstance :=
  match h !! l with
  | Some (OInterface ty n id sch) =>
      s ← load_optional (load_schema h) sch;
      Some {| interf_type := ty; interf_name := n; interf_id := id;
              schema := s |}
  | _ => None
  end.

Definition load_model (h : heap) (l : loc) : option CapabilityModel :=
  match h !! l with
  | Some (OModel impl) =>
      i ← load_optional (load_array (load_interface h) h) impl;
      Some {| implements := i |}
  | _ => None
  end.

(** The document an argument of [parse] stands for, when the store holds
    one there. *)
Definition load (h : heap) (capabilityModel : option loc)
  : option (option CapabilityModel) :=
  load_optional (load_model h) capabilityModel.

Definition load_descriptor (h : heap) (l : loc) : option CommonInterface.t :=
  match h !! l with
  | Some (ODescriptor c) => Some c
  | _ => None
  end.

(** The map a result object stands for. *)
Definition load_result (h : heap) (res : loc) : option InterfaceMap :=
  match h !! res with
  | Some (OResult m) =>
      if decide (map_Forall (λ _ l, is_Some (load_descriptor h l)) m)
      then Some (omap (load_descriptor h) m)
      else None
  | _ => None
  end.

(** What the caller of [parse] observes: the map returned or the error. *)
Definition observe (run : outcome loc * heap) : option (completion InterfaceMap) :=
  match run with
  | (Ret res, h) => Normal <$> load_result h res
  | (Raise e, _) => Some (Throw e)
  | (Stuck, _) => None
  end.

End Heap.

(** * The declared call styles of the client *)

(** The overloads that [IIoTCClient], [IIoTCProperty] and [IIoTCCommand]
    declare for the operations that talk to the hub, as data: the
    parameters in order and the return type.  (The setters, [on],
    [isConnected] and [addInterface] of [IIoTCClient] have a single
    style and are left out.) *)
Module Declarations.

Inductive type : Type :=
| TAny
| TString
| TOperationStatus
| TSendCallback.

Inductive return_type : Type :=
| TPromiseResult          (* Promise<Result> *)
| TVoid                   (* void *)
| TPromiseResultOrVoid.   (* Promise<Result> | void *)

Record param : Type := {
  pname : string;
  ptype : type;
  optional : bool
}.

Record overload : Type := {
  method : string;
  params : list param;
  returns : return_type
}.

#[global] Instance type_eq_dec : EqDecision type.
Proof. solve_decision. Defined.
#[global] Instance return_type_eq_dec : EqDecision return_type.
Proof. solve_decision. Defined.
#[global] Instance param_eq_dec : EqDecision param.
Proof. solve_decision. Defined.
#[global] Instance overload_eq_dec : EqDecision overload.
Proof. solve_decision. Defined.

Definition req (n : string) (t : type) : param :=
  {| pname := n; ptype := t; optional := false |}.
Definition opt (n : string) (t : type) : param :=
  {| pname := n; ptype := t; optional := true |}.

Definition payload := req "payload" TAny.
Definition interfaceName := req "interfaceName" TString.
Definition properties := req "properties" TAny.
Definition timestamp := req "timestamp" TString.
Definition status := req "status" TOperationStatus.
Definition message := req "message" TString.
Definition callback := req "callback" TSendCallback.

Definition IIoTCClient : list overload :=
  [ {| method := "disconnect"; params := []; returns := TPromiseResult |};
    {| method := "disconnect"; params := [callback]; returns := TVoid |};
    {| method := "connect"; params := []; returns := TPromiseResult |};
    {| method := "connect"; params := [callback]; returns := TVoid |};
    {| method := "sendTelemetry"; params := [payload; interfaceName];
       returns := TPromiseResult |};
    {| method := "sendTelemetry"; params := [payload; interfaceName; callback];
       returns := TVoid |};
    {| method := "sendTelemetry"; params := [payload; interfaceName; properties];
       returns := TPromiseResult |};
    {| method := "sendTelemetry";
       params := [payload; interfaceName; properties; callback];
       returns := TVoid |};
    {| method := "sendTelemetry"; params := [payload; interfaceName; timestamp];
       returns := TPromiseResult |};
    {| method := "sendTelemetry";
       params := [payload; interfaceName; timestamp; callback];
       returns := TVoid |};
    {| method := "sendTelemetry";
       params := [payload; interfaceName; properties; timestamp];
       returns := TPromiseResult |};
    {| method := "sendTelemetry";
       params := [payload; interfaceName; properties; timestamp; callback];
       returns := TVoid |};
    {| method := "sendState";
       params := [payload; opt "timestamp" TString; opt "callback" TSendCallback];
       returns := TPromiseResultOrVoid |};
    {| method := "sendEvent";
       params := [payload; opt "timestamp" TString; opt "callback" TSendCallback];
       returns := TPromiseResultOrVoid |};
    {| method := "sendProperty"; params := [payload; interfaceName];
       returns := TPromiseResult |};
    {| method := "sendProperty"; params := [payload; interfaceName; callback];
       returns := TVoid |} ].

Definition IIoTCProperty : list overload :=
  [ {| method := "report"; params := [status]; returns := TPromiseResult |};
    {| method := "report"; params := [status; callback]; returns := TVoid |};
    {| method := "report"; params := [status; message];
       returns := TPromiseResult |};
    {| method := "report"; params := [status; message; callback];
       returns := TVoid |} ].

Definition IIoTCCommand : list overload :=
  [ {| method := "acknowledge"; params := [status]; returns := TPromiseResult |};
    {| method := "acknowledge"; params := [status; message];
       returns := TPromiseResult |};
    {| method := "acknowledge"; params := [status; callback]; returns := TVoid |};
    {| method := "acknowledge"; params := [status; message; callback];
       returns := TVoid |};
    {| method := "update"; params := [status]; returns := TPromiseResult |};
    {| method := "update"; params := [status; message];
       returns := TPromiseResult |};
    {| method := "update"; params := [status; callback]; returns := TVoid |};
    {| method := "update"; params := [status; message; callback];
       returns := TVoid |} ].

End Declarations.

(** * The client façade *)

Module Facade.

(** The operations of the façade that reach the hub. *)
Inductive Operation : Type :=
| connect
| disconnect
| sendTelemetry
| sendProperty
| acknowledge
| update
| report.

Section Facade.

(** The values a call carries and the state of the injected library are
    opaque to the façade. *)
Context {Any Args Error Transport : Type}.

(** [class Result { constructor(public code?: any) }] *)
Record Result : Type := { code : option Any }.

(** The injected transport or provisioning implementation: what it makes
    of a forwarded call, and the state it is left in. *)
Variable forward : Operation → Args → Transport → (Error + Result) * Transport.

(** A settled [Promise<Result>]. *)
Inductive Promise : Type :=
| Resolved (result : Result)
| Rejected (err : Error).

(** The arguments a [SendCallback] is called with, [(err, result)]; [None]
    is [null]. *)
Definition Delivery : Type := option Error * option Result.

Inductive Returned : Type :=
| ReturnsPromise (p : Promise)
| ReturnsVoid (delivered : Delivery).

(** Modelled from the spec: the client class that implements
    [IIoTCClient] is not among the sources.  The spec describes it as a
    thin object that forwards calls to the injected transport and
    provisioning implementations and normalizes callback-vs-promise call
    styles: a call is forwarded, and its outcome is handed back as the
    settlement of the returned promise when no callback is given, and to
    the callback otherwise. *)
Definition call (op : Operation) (args : Args) (with_callback : bool)
    (t : Transport) : Returned * Transport :=
  let '(outcome, t') := forward op args t in
  (if with_callback then
     ReturnsVoid match outcome with
                 | inl err => (Some err, None)
                 | inr result => (None, Some result)
                 end
   else
     ReturnsPromise match outcome with
                    | inl err => Rejected err
                    | inr result => Resolved result
                    end,
   t').

(** The outcome a caller is told of, in either style. *)
Definition told (r : Returned) : option (Error + Result) :=
  match r with
  | ReturnsPromise (Resolved result) => Some (inr result)
  | ReturnsPromise (Rejected err) => Some (inl err)
  | ReturnsVoid (Some err, _) => Some (inl err)
  | ReturnsVoid (None, Some result) => Some (inr result)
  | ReturnsVoid (None, None) => None
  end.

End Facade.

End Facade.

(** * Vocabulary of the properties *)

(** The entries of [capabilityModel.implements]; none when the model or
    its [implements] member is absent. *)
Definition entries_of (capabilityModel : option CapabilityModel)
  : list InterfaceInstance :=
  match capabilityModel with
  | Some cm => default [] (implements cm)
  | None => []
  end.

(** An entry whose ["@type"] is ['InterfaceInstance'] and whose name is the
    non-empty string [n]. *)
Definition named_instance (interf : InterfaceInstance) (n : string) : Prop :=
  interf_type interf = Some "InterfaceInstance" ∧
  interf_name interf = Some n ∧ n ≠ EmptyString.

(** The same, as a function: the name of a named interface instance. *)
Definition instance_key (interf : InterfaceInstance) : option string :=
  match interf_type interf, interf_name interf with
  | Some ty, Some n =>
      if decide (ty = "InterfaceInstance" ∧ n ≠ EmptyString) then Some n else None
  | _, _ => None
  end.

(** The names of the items of a given ["@type"], in document order. *)
Definition names_of (ty : string) (items : list ContentItem) : list string :=
  item_name <$> filter (λ item, item_type item = Some ty) items.

(** The descriptor of an interface with the given items. *)
Definition descriptor (propertyCallback commandCallback : Callback)
    (n : string) (id : option string) (items : list ContentItem)
  : CommonInterface.t :=
  CommonInterface.mk n id propertyCallback commandCallback
    (names_of "Property" items) (names_of "Command" items)
    (names_of "Telemetry" items).

(** The items of an entry's schema: none when [contents] is absent. *)
Definition items_of (sch : InterfaceSchema) : list ContentItem :=
  default [] (contents sch).

(** A descriptor after the items have been walked: the names of each
    kind are appended to the matching collection. *)
Definition add_items (items : list ContentItem) (c : CommonInterface.t)
  : CommonInterface.t :=
  CommonInterface.mk (CommonInterface.name c) (CommonInterface.id c)
    (CommonInterface.propertyCallback c) (CommonInterface.commandCallback c)
    (CommonInterface.properties c ++ names_of "Property" items)
    (CommonInterface.commands c ++ names_of "Command" items)
    (CommonInterface.telemetry c ++ names_of "Telemetry" items).

(** What one entry leaves in the result when it does not throw. *)
Definition bind_entry (propertyCallback commandCallback : Callback)
    (interf : InterfaceInstance) (res : InterfaceMap) : InterfaceMap :=
  match instance_key interf, schema interf with
  | Some n, Some sch =>
      <[n := descriptor propertyCallback commandCallback n (interf_id interf)
               (items_of sch)]> res
  | _, _ => res
  end.

(** What a list of entries leaves in the result, in document order. *)
Definition bind_entries (propertyCallback commandCallback : Callback)
    (l : list InterfaceInstance) (res : InterfaceMap) : InterfaceMap :=
  foldl (flip (bind_entry propertyCallback commandCallback)) res l.

(** The visits of a walk that reaches the end of the entry at index [i]:
    the entry, then its items when it is a named interface instance with a
    schema. *)
Definition visits_of (i : nat) (interf : InterfaceInstance) : list visit :=
  VisitEntry i ::
  match instance_key interf, schema interf with
  | Some _, Some sch => VisitItem i <$> seq 0 (length (items_of sch))
  | _, _ => []
  end.

Arguments visits_of : simpl never.

Fixpoint visits_from (i : nat) (l : list InterfaceInstance) : list visit :=
  match l with
  | [] => []
  | interf :: l' => visits_of i interf ++ visits_from (S i) l'
  end.

Definition visit_index (v : visit) : nat :=
  match v with
  | VisitEntry i | VisitItem i _ => i
  end.

(** The operations of the façade the call styles are claimed for, with
    the interface that declares each. *)
Definition facade_operations : list (string * list Declarations.overload) :=
  [ ("connect", Declarations.IIoTCClient);
    ("disconnect", Declarations.IIoTCClient);
    ("sendTelemetry", Declarations.IIoTCClient);
    ("sendProperty", Declarations.IIoTCClient);
    ("acknowledge", Declarations.IIoTCCommand);
    ("update", Declarations.IIoTCCommand);
    ("report", Declarations.IIoTCProperty) ].

(** A promise-returning form: no callback argument, returns
    [Promise<Result>]. *)
Definition promise_form (o : Declarations.overload) : Prop :=
  Declarations.returns o = Declarations.TPromiseResult ∧
  Forall (λ p, Declarations.ptype p ≠ Declarations.TSendCallback)
         (Declarations.params o).

(** The callback form of a promise-returning overload: the same
    parameters followed by a [SendCallback], returning [void]. *)
Definition callback_form_of (o : Declarations.overload) : Declarations.overload :=
  {| Declarations.method := Declarations.method o;
     Declarations.params := Declarations.params o ++ [Declarations.callback];
     Declarations.returns := Declarations.TVoid |}.

(** Method [m] is declared in [decls], and each of its overloads is a
    promise-returning form whose callback form is declared too, or the
    callback form of a declared promise-returning form. *)
Definition both_forms (decls : list Declarations.overload) (m : string) : Prop :=
  Exists (λ o, Declarations.method o = m) decls ∧
  Forall (λ o, Declarations.method o = m →
            Exists (λ p, promise_form p ∧ callback_form_of p ∈ decls ∧
                         (o = p ∨ o = callback_form_of p)) decls) decls.

#[global] Instance promise_form_dec o : Decision (promise_form o).
Proof. unfold promise_form. apply _. Defined.

#[global] Instance both_forms_dec decls m : Decision (both_forms decls m).
Proof. unfold both_forms. apply _. Defined.

(** The visits the walk is due to make: every entry, and the items of
    the named interface instances that carry a schema. *)
Definition due (l : list InterfaceInstance) (v : visit) : Prop :=
  match v with
  | VisitEntry i => i < length l
  | VisitItem i j =>
      ∃ interf n sch, l !! i = Some interf ∧ named_instance interf n ∧
        schema interf = Some sch ∧ j < length (items_of sch)
  end.

(** Every named interface instance of the list carries a schema object. *)
Definition all_have_schema (l : list InterfaceInstance) : Prop :=
  ∀ interf n, interf ∈ l → named_instance interf n → is_Some (schema interf).

(** The outcome of a walk over the store that matches a completion. *)
Definition outcome_of {A : Type} (r : completion A) : Heap.outcome unit :=
  match r with
  | Normal _ => Heap.Ret tt
  | Throw e => Heap.Raise e
  end.

(** The objects a call constructs: descriptors and result maps. *)
Definition built (o : Heap.object) : Prop :=
  match o with
  | Heap.ODescriptor _ | Heap.OResult _ => True
  | _ => False
  end.

(** [extends h0 h]: every object of [h0] is in [h] as it was, and every
    other object of [h] is a descriptor or a result map. *)
Definition extends (h0 h : Heap.heap) : Prop :=
  h0 ⊆ h ∧ ∀ l o, h !! l = Some o → h0 !! l = None → built o.

(** [keeps h0 m]: [m] takes stores that extend [h0] to stores that extend
    [h0]. *)
Definition keeps {A : Type} (h0 : Heap.heap) (m : Heap.M A) : Prop :=
  ∀ h, extends h0 h → extends h0 (m h).2.

(** The number of items an entry offers to the walk. *)
Definition item_count (interf : InterfaceInstance) : nat :=
  match schema interf with
  | Some sch => length (items_of sch)
  | None => 0
  end.

(** An item whose ["@type"] is one of the three the walk records. *)
Definition recorded (item : ContentItem) : Prop :=
  item_type item = Some "Property" ∨ item_type item = Some "Command" ∨
  item_type item = Some "Telemetry".

#[global] Instance recorded_dec item : Decision (recorded item).
Proof. unfold recorded. apply _. Defined.

(** The call style an overload declares, read off its callback
    parameter: none, a required one in last position, or an optional one
    in last position. *)
Definition takes_no_callback (o : Declarations.overload) : Prop :=
  Forall (λ p, Declarations.ptype p ≠ Declarations.TSendCallback)
         (Declarations.params o).

Definition callback_last (o : Declarations.overload) (optional : bool) : Prop :=
  match list.last (Declarations.params o) with
  | Some cb =>
      Declarations.ptype cb = Declarations.TSendCallback ∧
      Declarations.optional cb = optional ∧
      Forall (λ p, Declarations.ptype p ≠ Declarations.TSendCallback)
             (take (length (Declarations.params o) - 1) (Declarations.params o))
  | None => False
  end.

Definition style_matches_return (o : Declarations.overload) : Prop :=
  match Declarations.returns o with
  | Declarations.TPromiseResult => takes_no_callback o
  | Declarations.TVoid => callback_last o false
  | Declarations.TPromiseResultOrVoid => callback_last o true
  end.

#[global] Instance style_matches_return_dec o : Decision (style_matches_return o).
Proof.
  unfold style_matches_return, takes_no_callback, callback_last.
  destruct (Declarations.returns o), (list.last (Declarations.params o)); apply _.
Defined.

(** [returns P m Q]: when [m], run in a store that satisfies [P], returns
    a value, the value and the store it leaves satisfy [Q]. *)
Definition returns {A : Type} (P : Heap.heap → Prop) (m : Heap.M A)
    (Q : A → Heap.heap → Prop) : Prop :=
  ∀ h a h', P h → m h = (Heap.Ret a, h') → Q a h'.

(** The result object [res] holds descriptors of its own: each member is
    a descriptor object that was not in the store [h0] and that no other
    member refers to. *)
Definition own_descriptors (h0 h : Heap.heap) (res : Heap.loc) : Prop :=
  dom h0 ⊆ dom h ∧
  ∃ m, h !! res = Some (Heap.OResult m) ∧
    ∀ k l, m !! k = Some l →
      h0 !! l = None ∧ (∃ c, h !! l = Some (Heap.ODescriptor c)) ∧
      ∀ k', m !! k' = Some l → k' = k.

(** The same while the descriptor [cInf] of the current entry is being
    filled: it is a new object that the result does not refer to yet. *)
Definition building (h0 : Heap.heap) (res cInf : Heap.loc) (h : Heap.heap)
  : Prop :=
  own_descriptors h0 h res ∧ h0 !! cInf = None ∧
  (∃ c, h !! cInf = Some (Heap.ODescriptor c)) ∧
  ∀ m k, h !! res = Some (Heap.OResult m) → m !! k ≠ Some cInf.

(** * Sample documents *)

Definition content_item (ty name : string) : ContentItem :=
  {| item_type := Some ty; item_name := name; item_writable := None |}.

Definition sensor_items : list ContentItem :=
  [ content_item "Telemetry" "temperature";
    {| item_type := Some "Property"; item_name := "fanSpeed";
       item_writable := Some true |};
    content_item "Command" "reboot";
    content_item "Relationship" "location";
    {| item_type := None; item_name := "untyped"; item_writable := None |};
    content_item "Telemetry" "humidity" ].

Definition interface (n id : string) (cts : option (list ContentItem))
  : InterfaceInstance :=
  {| interf_type := Some "InterfaceInstance"; interf_name := Some n;
     interf_id := Some id; schema := Some {| contents := cts |} |}.

Definition model (l : list InterfaceInstance) : option CapabilityModel :=
  Some {| implements := Some l |}.

(** Two interfaces, one of them without contents. *)
Definition doc_device : option CapabilityModel :=
  model [ interface "sensor" "urn:example:sensor:1" (Some sensor_items);
          interface "info" "urn:example:info:1" None ].

(** A named interface instance that carries no schema object. *)
Definition doc_no_schema : option CapabilityModel :=
  model [ {| interf_type := Some "InterfaceInstance";
             interf_name := Some "sensor";
             interf_id := Some "urn:example:sensor:1"; schema := None |} ].

(** The name ["sensor"] twice: first without contents, then with. *)
Definition doc_duplicate : option CapabilityModel :=
  model [ interface "sensor" "urn:example:sensor:1" None;
          interface "sensor" "urn:example:sensor:2" (Some sensor_items) ].

(** An interface instance named ["__proto__"], with a schema. *)
Definition doc_proto : option CapabilityModel :=
  model [ interface "__proto__" "urn:example:proto:1" None ].

(** An entry that is not an interface instance, with one item. *)
Definition doc_skipped : option CapabilityModel :=
  model [ {| interf_type := Some "Component"; interf_name := Some "gateway";
             interf_id := Some "urn:example:gateway:1";
             schema := Some {| contents :=
                         Some [content_item "Telemetry" "uptime"] |} |} ].

(** A named interface instance without schema, followed by another entry. *)
Definition doc_no_schema_first : option CapabilityModel :=
  model [ {| interf_type := Some "InterfaceInstance";
             interf_name := Some "sensor";
             interf_id := Some "urn:example:sensor:1"; schema := None |};
          interface "info" "urn:example:info:1" None ].

(** [doc_device] in a store, rooted at location 1. *)
Definition store_device : Heap.heap :=
  list_to_map
    [ (1%positive, Heap.OModel (Some 2%positive));
      (2%positive, Heap.OArray [3%positive; 12%positive]);
      (3%positive, Heap.OInterface (Some "InterfaceInstance") (Some "sensor")
                     (Some "urn:example:sensor:1") (Some 4%positive));
      (4%positive, Heap.OSchema (Some 5%positive));
      (5%positive, Heap.OArray [6%positive; 7%positive; 8%positive;
                                9%positive; 10%positive; 11%positive]);
      (6%positive, Heap.OItem (Some "Telemetry") "temperature" None);
      (7%positive, Heap.OItem (Some "Property") "fanSpeed" (Some true));
      (8%positive, Heap.OItem (Some "Command") "reboot" None);
      (9%positive, Heap.OItem (Some "Relationship") "location" None);
      (10%positive, Heap.OItem None "untyped" None);
      (11%positive, Heap.OItem (Some "Telemetry") "humidity" None);
      (12%positive, Heap.OInterface (Some "InterfaceInstance") (Some "info")
                      (Some "urn:example:info:1") (Some 13%positive));
      (13%positive, Heap.OSchema None) ].

(** The same document at other locations, rooted at location 40, in a
    store that also holds a descriptor left by an earlier call. *)
Definition store_device' : Heap.heap :=
  list_to_map
    [ (40%positive, Heap.OModel (Some 39%positive));
      (39%positive, Heap.OArray [21%positive; 22%positive]);
      (21%positive, Heap.OInterface (Some "InterfaceInstance") (Some "sensor")
                      (Some "urn:example:sensor:1") (Some 23%positive));
      (22%positive, Heap.OInterface (Some "InterfaceInstance") (Some "info")
                      (Some "urn:example:info:1") (Some 24%positive));
      (23%positive, Heap.OSchema (Some 25%positive));
      (24%positive, Heap.OSchema None);
      (25%positive, Heap.OArray [31%positive; 32%positive; 33%positive;
                                 34%positive; 35%positive; 36%positive]);
      (31%positive, Heap.OItem (Some "Telemetry") "temperature" None);
      (32%positive, Heap.OItem (Some "Property") "fanSpeed" (Some true));
      (33%positive, Heap.OItem (Some "Command") "reboot" None);
      (34%positive, Heap.OItem (Some "Relationship") "location" None);
      (35%positive, Heap.OItem None "untyped" None);
      (36%positive, Heap.OItem (Some "Telemetry") "humidity" None);
      (1%positive, Heap.ODescriptor
                     (CommonInterface.new "stale" None (Some 7) (Some 8))) ].

(** * Properties of the embedding *)

(** ** The embedding at work *)

Example parse_doc_device :
  parse doc_device None None =
  Normal (<["sensor" := CommonInterface.mk "sensor" (Some "urn:example:sensor:1")
                          None None ["fanSpeed"] ["reboot"]
                          ["temperature"; "humidity"]]>
          (<["info" := CommonInterface.mk "info" (Some "urn:example:info:1")
                         None None [] [] []]> ∅)).
Proof. vm_compute. reflexivity. Qed.

Example parse_absent :
  parse None None None = Normal ∅ ∧
  parse (Some {| implements := None |}) None None = Normal ∅ ∧
  parse (model []) None None = Normal ∅.
Proof. done. Qed.

Example parse_doc_no_schema_first :
  parse doc_no_schema_first None None = Throw TypeError.
Proof. reflexivity. Qed.

Example parse_store_device :
  Heap.observe (Heap.parse (Some 1%positive) None None store_device) =
  Some (parse doc_device None None).
Proof. vm_compute. reflexivity. Qed.

Example sendState_single_style :
  ¬ both_forms Declarations.IIoTCClient "sendState".
Proof. compute_done. Qed.

Lemma instance_key_Some interf n :
  instance_key interf = Some n ↔ named_instance interf n.
Proof.
  unfold instance_key, named_instance.
  destruct (interf_type interf) as [ty|], (interf_name interf) as [m|];
    try (split; [done|intros (?&?&?); done]).
  case_decide as Hd; split.
  - intros [= ->]. destruct Hd as [-> ?]. done.
  - intros (_&[= ->]&_). done.
  - done.
  - intros ([= ->]&[= ->]&?). destruct Hd. done.
Qed.

Lemma names_of_app ty l1 l2 :
  names_of ty (l1 ++ l2) = names_of ty l1 ++ names_of ty l2.
Proof. unfold names_of. by rewrite list.filter_app, fmap_app. Qed.

Lemma names_of_cons ty item l :
  names_of ty (item :: l) =
  (if decide (item_type item = Some ty) then [item_name item] else []) ++
  names_of ty l.
Proof. unfold names_of. rewrite list.filter_cons. by case_decide. Qed.

Lemma add_items_nil c : add_items [] c = c.
Proof. destruct c. unfold add_items. simpl. by rewrite !app_nil_r. Qed.

Lemma add_items_app l1 l2 c : add_items (l1 ++ l2) c = add_items l2 (add_items l1 c).
Proof.
  unfold add_items. simpl. rewrite !names_of_app.
  f_equal; apply (assoc_L (++)).
Qed.

Lemma truthy_strict_eq v lit :
  lit ≠ EmptyString → truthy v && strict_eq v lit = bool_decide (v = Some lit).
Proof.
  intros Hlit. unfold strict_eq. destruct v as [s|]; simpl; [|done].
  case_bool_decide as H; [|by rewrite andb_false_r].
  injection H as ->. rewrite andb_true_r.
  destruct (String.eqb_spec lit EmptyString); done.
Qed.

Lemma parse_item_spec item c :
  parse_item item c = Normal (add_items [item] c).
Proof.
  unfold parse_item. rewrite !truthy_strict_eq by done.
  unfold add_items. rewrite !names_of_cons. unfold names_of. simpl.
  repeat case_bool_decide; repeat case_decide; try congruence;
    simpl; rewrite ?app_nil_r; destruct c; done.
Qed.

Lemma forEach_parse_item items c :
  forEach parse_item items c = Normal (add_items items c).
Proof.
  revert c. induction items as [|item items IH]; intros c; simpl.
  - by rewrite add_items_nil.
  - rewrite parse_item_spec. simpl. rewrite IH.
    by rewrite <-add_items_app.
Qed.

(** The guards of the [implements.forEach] callback. *)
Lemma strict_eq_true v lit : v = Some lit → strict_eq v lit = true.
Proof. intros ->. by apply bool_decide_true. Qed.

Lemma name_guard_true n : n ≠ EmptyString → truthy (Some n) && length_gt_0 n = true.
Proof.
  intros Hn. unfold truthy, length_gt_0.
  destruct (String.eqb_spec n EmptyString); [done|]. simpl.
  apply bool_decide_true. destruct n; [done|simpl; lia].
Qed.

Lemma instance_key_None interf :
  instance_key interf = None →
  strict_eq (interf_type interf) "InterfaceInstance" = false ∨
  interf_name interf = None ∨ interf_name interf = Some EmptyString.
Proof.
  unfold instance_key, strict_eq.
  destruct (interf_type interf) as [ty|]; [|by left].
  destruct (interf_name interf) as [n|]; [|by right; left].
  case_decide as Hd; [done|]. intros _.
  case_bool_decide as Hty; [|by left]. injection Hty as ->.
  right. right. f_equal. destruct (decide (n = EmptyString)); [done|]. by destruct Hd.
Qed.

(** Evaluate the guards of the callback in the goal, for an entry known
    to be, or not to be, a named interface instance. *)
Ltac eval_guards H :=
  lazymatch type of H with
  | named_instance _ _ =>
      let Hty := fresh "Hty" in
      let Hn := fresh "Hn" in
      let Hne := fresh "Hne" in
      destruct H as (Hty & Hn & Hne);
      rewrite (strict_eq_true _ _ Hty), Hn, (name_guard_true _ Hne)
  | instance_key _ = None =>
      let Hty := fresh "Hty" in
      let Hn := fresh "Hn" in
      destruct (instance_key_None _ H) as [Hty|[Hn|Hn]];
      [rewrite Hty|rewrite Hn; destruct (strict_eq _ _)
      |rewrite Hn; destruct (strict_eq _ _)]
  end.

Lemma parse_interf_skip pcb ccb interf res :
  instance_key interf = None → parse_interf pcb ccb interf res = Normal res.
Proof. intros Hk. unfold parse_interf. eval_guards Hk; done. Qed.

Lemma parse_interf_throw pcb ccb interf res n :
  instance_key interf = Some n → schema interf = None →
  parse_interf pcb ccb interf res = Throw TypeError.
Proof.
  intros Hk%instance_key_Some Hs. unfold parse_interf, schema_contents.
  eval_guards Hk. by rewrite Hs.
Qed.

Lemma parse_interf_bind pcb ccb interf res n sch :
  instance_key interf = Some n → schema interf = Some sch →
  parse_interf pcb ccb interf res =
  Normal (<[n := descriptor pcb ccb n (interf_id interf) (items_of sch)]> res).
Proof.
  intros Hk%instance_key_Some Hs.
  unfold parse_interf, schema_contents, items_of.
  eval_guards Hk. rewrite Hs. simpl.
  destruct (contents sch) as [items|]; simpl; [|done].
  case_bool_decide as Hlen.
  - by rewrite forEach_parse_item.
  - destruct items; [done|simpl in Hlen; lia].
Qed.

(** ** The walk over [implements] *)

Lemma all_have_schema_cons interf l :
  all_have_schema (interf :: l) ↔
  (∀ n, named_instance interf n → is_Some (schema interf)) ∧ all_have_schema l.
Proof.
  unfold all_have_schema. split.
  - intros H. split; [intros n; apply H; left|].
    intros e n He. apply H. by right.
  - intros [H1 H2] e n [->|He]%elem_of_cons; [apply H1|by apply H2].
Qed.

Lemma bind_entries_cons pcb ccb interf l res :
  bind_entries pcb ccb (interf :: l) res =
  bind_entries pcb ccb l (bind_entry pcb ccb interf res).
Proof. done. Qed.

Lemma bind_entries_app pcb ccb l1 l2 res :
  bind_entries pcb ccb (l1 ++ l2) res =
  bind_entries pcb ccb l2 (bind_entries pcb ccb l1 res).
Proof. unfold bind_entries. by rewrite foldl_app. Qed.

Lemma forEach_parse_interf_ok pcb ccb l res :
  all_have_schema l →
  forEach (parse_interf pcb ccb) l res = Normal (bind_entries pcb ccb l res).
Proof.
  revert res. induction l as [|interf l IH]; intros res Hall; [done|].
  apply all_have_schema_cons in Hall as [H1 Hall].
  rewrite bind_entries_cons. cbn [forEach]. unfold bind_entry.
  destruct (instance_key interf) as [n|] eqn:Hk.
  - destruct (H1 n) as [sch Hs]; [by apply instance_key_Some|].
    rewrite (parse_interf_bind _ _ _ _ n sch), Hs by done. by apply IH.
  - rewrite parse_interf_skip by done. by apply IH.
Qed.

Lemma forEach_parse_interf_throw pcb ccb l res interf n :
  interf ∈ l → named_instance interf n → schema interf = None →
  forEach (parse_interf pcb ccb) l res = Throw TypeError.
Proof.
  intros Hin Hn Hs. revert res.
  induction l as [|e l IH]; intros res; [by apply elem_of_nil in Hin|].
  simpl. destruct (instance_key e) as [k|] eqn:Hk.
  - destruct (schema e) as [sch|] eqn:Hse.
    + rewrite (parse_interf_bind _ _ _ _ k sch) by done. simpl.
      apply elem_of_cons in Hin as [->|Hin]; [congruence|by apply IH].
    + by rewrite (parse_interf_throw _ _ _ _ k).
  - rewrite parse_interf_skip by done. simpl.
    apply elem_of_cons in Hin as [->|Hin]; [|by apply IH].
    apply instance_key_Some in Hn. congruence.
Qed.

Lemma forEach_parse_interf_Normal pcb ccb l res m :
  forEach (parse_interf pcb ccb) l res = Normal m →
  all_have_schema l ∧ m = bind_entries pcb ccb l res.
Proof.
  intros Hrun.
  assert (all_have_schema l) as Hall.
  { intros interf n Hin Hn. destruct (schema interf) eqn:Hs; [done|].
    rewrite (forEach_parse_interf_throw _ _ _ _ interf n) in Hrun; done. }
  split; [done|]. rewrite forEach_parse_interf_ok in Hrun by done. congruence.
Qed.

(** ** What the entries leave in the result *)

Lemma bind_entry_lookup_ne pcb ccb interf res k :
  instance_key interf ≠ Some k →
  bind_entry pcb ccb interf res !! k = res !! k.
Proof.
  intros Hk. unfold bind_entry.
  destruct (instance_key interf) as [n|]; [|done].
  destruct (schema interf); [|done].
  rewrite lookup_insert_ne; [done|congruence].
Qed.

Lemma bind_entries_lookup_ne pcb ccb l res k :
  (∀ interf, interf ∈ l → instance_key interf ≠ Some k) →
  bind_entries pcb ccb l res !! k = res !! k.
Proof.
  revert res. induction l as [|interf l IH]; intros res Hl; [done|].
  rewrite bind_entries_cons, IH by (intros e He; apply Hl; by right).
  apply bind_entry_lookup_ne, Hl. by left.
Qed.

Lemma bind_entries_lookup_last pcb ccb l1 interf l2 res n sch :
  instance_key interf = Some n → schema interf = Some sch →
  (∀ e, e ∈ l2 → instance_key e ≠ Some n) →
  bind_entries pcb ccb (l1 ++ interf :: l2) res !! n =
  Some (descriptor pcb ccb n (interf_id interf) (items_of sch)).
Proof.
  intros Hk Hs Hl2. rewrite bind_entries_app, bind_entries_cons.
  rewrite bind_entries_lookup_ne by done.
  unfold bind_entry. rewrite Hk, Hs. apply lookup_insert_eq.
Qed.

Lemma bind_entries_lookup_Some pcb ccb l res k c :
  bind_entries pcb ccb l res !! k = Some c →
  res !! k = Some c ∨
  ∃ interf sch, interf ∈ l ∧ instance_key interf = Some k ∧
    schema interf = Some sch ∧
    c = descriptor pcb ccb k (interf_id interf) (items_of sch).
Proof.
  revert res. induction l as [|interf l IH]; intros res; [by left|].
  rewrite bind_entries_cons. intros [H|(e&sch&He&Hk&Hs&->)]%IH.
  - unfold bind_entry in H.
    destruct (instance_key interf) as [n|] eqn:Hk; [|by left].
    destruct (schema interf) as [sch|] eqn:Hs; [|by left].
    destruct (decide (n = k)) as [->|Hne].
    + rewrite lookup_insert_eq in H. injection H as <-.
      right. exists interf, sch. split; [by left|done].
    + rewrite lookup_insert_ne in H by done. by left.
  - right. exists e, sch. split; [by right|done].
Qed.

Lemma bind_entries_lookup_is_Some pcb ccb l res k :
  all_have_schema l →
  is_Some (bind_entries pcb ccb l res !! k) ↔
  is_Some (res !! k) ∨ ∃ interf, interf ∈ l ∧ named_instance interf k.
Proof.
  revert res. induction l as [|interf l IH]; intros res Hall.
  - simpl. split; [by left|]. intros [H|(e&He&_)]; [done|].
    by apply elem_of_nil in He.
  - apply all_have_schema_cons in Hall as [H1 Hall].
    rewrite bind_entries_cons, IH by done. unfold bind_entry.
    destruct (instance_key interf) as [n|] eqn:Hk.
    + destruct (H1 n) as [sch Hs]; [by apply instance_key_Some|]. rewrite Hs.
      rewrite lookup_insert_is_Some. split.
      * intros [[->|[_ H]]|(e&He&Hn)].
        -- right. exists interf. split; [by left|by apply instance_key_Some].
        -- by left.
        -- right. exists e. split; [by right|done].
      * intros [H|(e&[->|He]%elem_of_cons&Hn)].
        -- left. destruct (decide (n = k)); [by left|by right].
        -- apply instance_key_Some in Hn. left. left. congruence.
        -- right. by exists e.
    + split.
      * intros [H|(e&He&Hn)]; [by left|]. right. exists e. split; [by right|done].
      * intros [H|(e&[->|He]%elem_of_cons&Hn)]; [by left| |right; by exists e].
        apply instance_key_Some in Hn. congruence.
Qed.

Lemma bind_entries_size pcb ccb l res :
  size (bind_entries pcb ccb l res) ≤ size res + length l.
Proof.
  revert res. induction l as [|interf l IH]; intros res; [simpl; lia|].
  rewrite bind_entries_cons. cbn [length]. etrans; [apply IH|].
  assert (size (bind_entry pcb ccb interf res) ≤ S (size res)); [|lia].
  unfold bind_entry. destruct (instance_key interf) as [n|]; [|lia].
  destruct (schema interf); [|lia].
  destruct (res !! n) eqn:Hr.
  - rewrite map_size_insert_Some by done. lia.
  - rewrite map_size_insert_None by done. lia.
Qed.

(** ** [parse] as a walk over the entries *)

Lemma parse_forEach cm pcb ccb :
  parse cm pcb ccb = forEach (parse_interf pcb ccb) (entries_of cm) ∅.
Proof.
  unfold parse, entries_of. destruct cm as [[[l|]]|]; simpl; try done.
  case_bool_decide as Hl; [done|]. destruct l; [done|simpl in Hl; lia].
Qed.

Lemma parse_Normal cm pcb ccb m :
  parse cm pcb ccb = Normal m ↔
  all_have_schema (entries_of cm) ∧ m = bind_entries pcb ccb (entries_of cm) ∅.
Proof.
  rewrite parse_forEach. split.
  - apply forEach_parse_interf_Normal.
  - intros [Hall ->]. by apply forEach_parse_interf_ok.
Qed.

Lemma forEach_parse_interf_Throw_inv pcb ccb l res err :
  forEach (parse_interf pcb ccb) l res = Throw err →
  ∃ interf n, interf ∈ l ∧ named_instance interf n ∧ schema interf = None.
Proof.
  revert res. induction l as [|e l IH]; intros res; [done|].
  cbn [forEach]. destruct (instance_key e) as [k|] eqn:Hk.
  - destruct (schema e) as [sch|] eqn:Hs.
    + rewrite (parse_interf_bind _ _ _ _ k sch) by done.
      intros (interf & n & Hin & H)%IH. exists interf, n. split; [by right|done].
    + intros _. exists e, k. split; [by left|].
      split; [by apply instance_key_Some|done].
  - rewrite parse_interf_skip by done.
    intros (interf & n & Hin & H)%IH. exists interf, n. split; [by right|done].
Qed.

Lemma parse_Throw cm pcb ccb err :
  parse cm pcb ccb = Throw err ↔
  ∃ interf n, interf ∈ entries_of cm ∧ named_instance interf n ∧
    schema interf = None.
Proof.
  rewrite parse_forEach. split.
  - apply forEach_parse_interf_Throw_inv.
  - intros (interf & n & Hin & Hn & Hs). destruct err.
    by apply (forEach_parse_interf_throw _ _ _ _ interf n).
Qed.

(** * The claims about [parse] *)

(** C1 (as amended).  For every capability model document in which each
    InterfaceInstance entry with a non-empty name carries a schema object,
    [parse] returns a map whose keys, the name ['__proto__'] aside, are
    exactly the names of the entries of [implements] whose ["@type"] is
    ['InterfaceInstance'] and whose name is a non-empty string; each name
    bound is bound to a descriptor built from the name and ["@id"] of such
    an entry; and when the model is absent, or [implements] is absent or
    empty, the result is the empty map. *)
Theorem parse_keys cm pcb ccb :
  all_have_schema (entries_of cm) →
  ∃ m, parse cm pcb ccb = Normal m ∧
    (∀ k, k ≠ proto_name →
       (k ∈ own_keys m ↔
        ∃ interf, interf ∈ entries_of cm ∧ named_instance interf k)) ∧
    (∀ k c, m !! k = Some c →
       ∃ interf sch, interf ∈ entries_of cm ∧ named_instance interf k ∧
         schema interf = Some sch ∧
         c = descriptor pcb ccb k (interf_id interf) (items_of sch) ∧
         CommonInterface.name c = k ∧
         CommonInterface.id c = interf_id interf) ∧
    ((cm = None ∨ ∃ c, cm = Some c ∧
        (implements c = None ∨ implements c = Some [])) → m = ∅).
Proof.
  intros Hall. exists (bind_entries pcb ccb (entries_of cm) ∅).
  split; [by apply parse_Normal|]. split; [|split].
  - intros k Hk. unfold own_keys.
    rewrite elem_of_difference, elem_of_singleton, elem_of_dom.
    rewrite bind_entries_lookup_is_Some by done.
    rewrite lookup_empty. split.
    + intros [[[? [=]]|H] _]; done.
    + intros H. split; [by right|done].
  - intros k c [Hc|(interf&sch&Hin&Hk&Hs&->)]%bind_entries_lookup_Some.
    { by rewrite lookup_empty in Hc. }
    exists interf, sch. apply instance_key_Some in Hk. done.
  - intros [->|(c&->&[Hc|Hc])]; unfold entries_of; simpl; by rewrite ?Hc.
Qed.

Lemma doc_device_all_have_schema : all_have_schema (entries_of doc_device).
Proof.
  intros interf n Hin _. simpl in Hin.
  repeat (apply elem_of_cons in Hin as [->|Hin]; [by eexists|]).
  by apply elem_of_nil in Hin.
Defined.

Lemma parse_keys_witness :
  ∃ m, parse doc_device None None = Normal m ∧
    (∀ k, k ≠ proto_name →
       (k ∈ own_keys m ↔
        ∃ interf, interf ∈ entries_of doc_device ∧ named_instance interf k)) ∧
    (∀ k c, m !! k = Some c →
       ∃ interf sch, interf ∈ entries_of doc_device ∧ named_instance interf k ∧
         schema interf = Some sch ∧
         c = descriptor None None k (interf_id interf) (items_of sch) ∧
         CommonInterface.name c = k ∧
         CommonInterface.id c = interf_id interf) ∧
    ((doc_device = None ∨ ∃ c, doc_device = Some c ∧
        (implements c = None ∨ implements c = Some [])) → m = ∅).
Proof. exact (parse_keys doc_device None None doc_device_all_have_schema). Defined.

(** C1 as stated fails: on a document with a named interface instance
    that has no schema object, [parse] throws instead of returning a map;
    and for an interface instance named ['__proto__'] that carries a
    schema, the map returned has no key at all: the descriptor has become
    its prototype. *)
Lemma parse_keys_counterexample :
  (parse doc_no_schema None None = Throw TypeError ∧
   ¬ ∃ m, parse doc_no_schema None None = Normal m) ∧
  (∃ interf, interf ∈ entries_of doc_proto ∧
     named_instance interf "__proto__" ∧ is_Some (schema interf)) ∧
  ∃ m c, parse doc_proto None None = Normal m ∧
    own_keys m = ∅ ∧ ("__proto__" ∉ own_keys m) ∧ prototype m = Some c.
Proof.
  assert (parse doc_no_schema None None = Throw TypeError) as H by reflexivity.
  split; [split; [done|]; intros [m Hm]; congruence|].
  split.
  - eexists. split; [by left|]. split; [by repeat split|by eexists].
  - eexists _, _. split; [reflexivity|].
    split; [by vm_compute|]. split; [by vm_compute|reflexivity].
Qed.

(** C2.  For every interface instance processed by [parse] (a named
    InterfaceInstance entry with a schema object), the descriptor stored
    under its name has as property collection exactly the names of the
    items of [schema.contents] whose ["@type"] is ['Property'], as command
    collection those whose ["@type"] is ['Command'] and as telemetry
    collection those whose ["@type"] is ['Telemetry']; an item with a
    missing or any other ["@type"] leaves the descriptor as it is.  The
    same holds of every descriptor in a map returned by [parse]. *)
Theorem parse_collections pcb ccb :
  (∀ interf n sch res,
     named_instance interf n → schema interf = Some sch →
     ∃ c, parse_interf pcb ccb interf res = Normal (<[n := c]> res) ∧
       CommonInterface.properties c = names_of "Property" (items_of sch) ∧
       CommonInterface.commands c = names_of "Command" (items_of sch) ∧
       CommonInterface.telemetry c = names_of "Telemetry" (items_of sch)) ∧
  (∀ item cInf,
     item_type item ≠ Some "Property" → item_type item ≠ Some "Command" →
     item_type item ≠ Some "Telemetry" →
     parse_item item cInf = Normal cInf) ∧
  (∀ cm m k c,
     parse cm pcb ccb = Normal m → m !! k = Some c →
     ∃ interf sch, interf ∈ entries_of cm ∧ named_instance interf k ∧
       schema interf = Some sch ∧
       CommonInterface.properties c = names_of "Property" (items_of sch) ∧
       CommonInterface.commands c = names_of "Command" (items_of sch) ∧
       CommonInterface.telemetry c = names_of "Telemetry" (items_of sch)).
Proof.
  split; [|split].
  - intros interf n sch res Hn Hs. eexists. split.
    + apply parse_interf_bind; [by apply instance_key_Some|done].
    + done.
  - intros item cInf Hp Hc Ht. rewrite parse_item_spec.
    unfold add_items. rewrite !names_of_cons. unfold names_of. simpl.
    rewrite !decide_False by done. simpl. rewrite !app_nil_r. by destruct cInf.
  - intros cm m k c [_ ->]%parse_Normal
      [Hc|(interf&sch&Hin&Hk&Hs&->)]%bind_entries_lookup_Some.
    { by rewrite lookup_empty in Hc. }
    exists interf, sch. apply instance_key_Some in Hk. done.
Qed.

Lemma parse_collections_witness :
  ∃ c, parse_interf None None
         (interface "sensor" "urn:example:sensor:1" (Some sensor_items)) ∅
       = Normal (<["sensor" := c]> ∅) ∧
    CommonInterface.properties c = ["fanSpeed"] ∧
    CommonInterface.commands c = ["reboot"] ∧
    CommonInterface.telemetry c = ["temperature"; "humidity"].
Proof.
  apply (proj1 (parse_collections None None)
           (interface "sensor" "urn:example:sensor:1" (Some sensor_items))
           "sensor" {| contents := Some sensor_items |} ∅).
  - repeat split. discriminate.
  - reflexivity.
Defined.

(** C3.  [parse] performs no error recovery: it raises an error if and
    only if some entry of [implements] has ["@type"] ['InterfaceInstance']
    and a non-empty name but no schema object; when every such entry
    carries a schema object, [parse] does not raise and returns a map. *)
Theorem parse_raises_iff cm pcb ccb :
  ((∃ err, parse cm pcb ccb = Throw err) ↔
   ∃ interf n, interf ∈ entries_of cm ∧ named_instance interf n ∧
     schema interf = None) ∧
  (all_have_schema (entries_of cm) → ∃ m, parse cm pcb ccb = Normal m).
Proof.
  split.
  - split.
    + intros [err H]. by apply parse_Throw in H.
    + intros H. exists TypeError. by apply parse_Throw.
  - intros Hall. eexists. by apply parse_Normal.
Qed.

Lemma parse_raises_iff_witness : ∃ m, parse doc_device None None = Normal m.
Proof.
  apply (proj2 (parse_raises_iff doc_device None None)).
  intros interf n Hin _. simpl in Hin.
  repeat (apply elem_of_cons in Hin as [->|Hin]; [by eexists|]).
  by apply elem_of_nil in Hin.
Defined.

(** C8.  If several entries of [implements] are InterfaceInstances with
    the same non-empty name, the result of [parse] maps that name to the
    descriptor built from the last such entry in document order, and the
    result has at most as many keys as [implements] has entries. *)
Theorem parse_last_wins cm pcb ccb m :
  parse cm pcb ccb = Normal m →
  (∀ l1 interf l2 n,
     entries_of cm = l1 ++ interf :: l2 →
     named_instance interf n →
     (∀ e, e ∈ l2 → ¬ named_instance e n) →
     ∃ sch, schema interf = Some sch ∧
       m !! n = Some (descriptor pcb ccb n (interf_id interf) (items_of sch))) ∧
  size m ≤ length (entries_of cm).
Proof.
  intros [Hall ->]%parse_Normal. split.
  - intros l1 interf l2 n Hl Hn Hlast.
    destruct (Hall interf n) as [sch Hs]; [|done|].
    { rewrite Hl. apply elem_of_app. right. by left. }
    exists sch. split; [done|]. rewrite Hl.
    apply bind_entries_lookup_last; [by apply instance_key_Some|done|].
    intros e He Hk. apply instance_key_Some in Hk. by apply (Hlast e).
  - etrans; [apply bind_entries_size|]. rewrite map_size_empty. lia.
Qed.

Lemma parse_last_wins_witness :
  ∃ m, parse doc_duplicate None None = Normal m ∧
    m !! "sensor" =
      Some (descriptor None None "sensor" (Some "urn:example:sensor:2")
              sensor_items) ∧
    size m ≤ 2.
Proof.
  eexists. split; [reflexivity|].
  destruct (parse_last_wins doc_duplicate None None _ eq_refl) as [Hlast Hsize].
  split; [|exact Hsize].
  destruct (Hlast [interface "sensor" "urn:example:sensor:1" None]
              (interface "sensor" "urn:example:sensor:2" (Some sensor_items))
              [] "sensor") as (sch & Hs & Hm).
  - reflexivity.
  - repeat split. discriminate.
  - intros e He. by apply elem_of_nil in He.
  - injection Hs as <-. exact Hm.
Defined.

(** C9 (as amended).  An InterfaceInstance entry with a non-empty name
    whose schema object is present but whose [schema.contents] is absent
    or empty raises no error and is stored under its name with a
    descriptor whose property, command and telemetry collections are all
    empty; in a map returned by [parse] its name is a key, unless the name
    is ['__proto__'], and is bound to such a descriptor unless a later
    InterfaceInstance entry of the same name overwrites it. *)
Theorem parse_empty_contents cm pcb ccb l1 interf l2 n sch :
  entries_of cm = l1 ++ interf :: l2 →
  named_instance interf n →
  schema interf = Some sch →
  contents sch = None ∨ contents sch = Some [] →
  (∀ res, parse_interf pcb ccb interf res =
          Normal (<[n := CommonInterface.new n (interf_id interf) pcb ccb]> res)) ∧
  (∀ m, parse cm pcb ccb = Normal m →
     (n ≠ proto_name → n ∈ own_keys m) ∧
     ((∀ e, e ∈ l2 → ¬ named_instance e n) →
      ∃ c, m !! n = Some c ∧
        CommonInterface.properties c = [] ∧
        CommonInterface.commands c = [] ∧
        CommonInterface.telemetry c = [])).
Proof.
  intros Hl Hn Hs Hc.
  assert (items_of sch = []) as Hitems.
  { unfold items_of. by destruct Hc as [-> | ->]. }
  split.
  - intros res. rewrite (parse_interf_bind _ _ _ _ n sch), Hitems; [done| |done].
    by apply instance_key_Some.
  - intros m [Hall ->]%parse_Normal. split.
    + intros Hproto. unfold own_keys. rewrite elem_of_difference. split.
      * apply elem_of_dom, bind_entries_lookup_is_Some; [done|].
        right. exists interf. split; [|done].
        rewrite Hl. apply elem_of_app. right. by left.
      * by rewrite elem_of_singleton.
    + intros Hlast.
      exists (descriptor pcb ccb n (interf_id interf) []). split; [|done].
      rewrite Hl, <-Hitems. apply bind_entries_lookup_last;
        [by apply instance_key_Some|done|].
      intros e He Hk. apply instance_key_Some in Hk. by apply (Hlast e).
Qed.

Lemma parse_empty_contents_witness :
  parse_interf None None (interface "info" "urn:example:info:1" None) ∅
  = Normal (<["info" := CommonInterface.new "info" (Some "urn:example:info:1")
                          None None]> ∅).
Proof.
  assert (named_instance (interface "info" "urn:example:info:1" None) "info")
    as Hn by (repeat split; discriminate).
  destruct (parse_empty_contents doc_device None None
              [interface "sensor" "urn:example:sensor:1" (Some sensor_items)]
              (interface "info" "urn:example:info:1" None) []
              "info" {| contents := None |}
              eq_refl Hn eq_refl (or_introl eq_refl)) as [H _].
  exact (H ∅).
Defined.

(** C9 as stated fails: the first entry of [doc_duplicate] is a named
    interface instance with a schema and no contents, yet the result binds
    its name to a descriptor with a non-empty property collection, the one
    of the later entry of the same name. *)
Lemma parse_empty_contents_counterexample :
  let first := interface "sensor" "urn:example:sensor:1" None in
  first ∈ entries_of doc_duplicate ∧
  named_instance first "sensor" ∧
  (∃ sch, schema first = Some sch ∧ contents sch = None) ∧
  ∃ m c, parse doc_duplicate None None = Normal m ∧
    m !! "sensor" = Some c ∧
    CommonInterface.properties c = ["fanSpeed"] ∧
    CommonInterface.properties c ≠ [].
Proof.
  simpl. split; [by left|]. split; [by repeat split|].
  split; [by eexists|].
  eexists _, _. split; [reflexivity|]. split; [reflexivity|]. done.
Qed.

(** ** The visits of the walk *)

Lemma forEach_parse_item_traced i j0 items c :
  forEach_traced (parse_item_traced i) j0 items c =
  (VisitItem i <$> seq j0 (length items), Normal (add_items items c)).
Proof.
  revert j0 c. induction items as [|item items IH]; intros j0 c.
  - simpl. by rewrite add_items_nil.
  - cbn [forEach_traced]. unfold parse_item_traced at 1.
    rewrite parse_item_spec, IH. simpl. by rewrite <-add_items_app.
Qed.

Lemma parse_interf_traced_snd pcb ccb i interf res :
  (parse_interf_traced pcb ccb i interf res).2 = parse_interf pcb ccb interf res.
Proof.
  unfold parse_interf_traced, parse_interf.
  destruct (strict_eq _ _); [|done].
  destruct (interf_name interf) as [n|]; [|done].
  destruct (truthy _ && length_gt_0 _); [|done].
  destruct (schema_contents interf) as [[items|]|e]; simpl; [|done..].
  case_bool_decide; [|done].
  rewrite forEach_parse_item_traced, forEach_parse_item. done.
Qed.

Lemma parse_interf_traced_fst pcb ccb i interf res :
  (parse_interf_traced pcb ccb i interf res).1 = visits_of i interf.
Proof.
  unfold visits_of, parse_interf_traced, schema_contents, items_of.
  destruct (instance_key interf) as [n|] eqn:Hk.
  - apply instance_key_Some in Hk. eval_guards Hk.
    destruct (schema interf) as [[[items|]]|]; simpl; [|done..].
    case_bool_decide as Hlen.
    + by rewrite forEach_parse_item_traced.
    + destruct items; [done|simpl in Hlen; lia].
  - eval_guards Hk; done.
Qed.

Lemma forEach_parse_interf_traced pcb ccb i l res :
  let run := forEach_traced (parse_interf_traced pcb ccb) i l res in
  run.2 = forEach (parse_interf pcb ccb) l res ∧
  run.1 `prefix_of` visits_from i l ∧
  (∀ m, run.2 = Normal m → run.1 = visits_from i l).
Proof.
  revert i res. induction l as [|interf l IH]; intros i res.
  { simpl. split; [done|]. split; [done|]. done. }
  cbn [forEach_traced forEach visits_from]. cbv zeta.
  pose proof (parse_interf_traced_snd pcb ccb i interf res) as Hsnd.
  pose proof (parse_interf_traced_fst pcb ccb i interf res) as Hfst.
  destruct (parse_interf_traced pcb ccb i interf res) as [log [res'|e]];
    cbn [fst snd] in Hsnd, Hfst; rewrite <-Hsnd, Hfst.
  - destruct (IH (S i) res') as (IH1 & IH2 & IH3).
    destruct (forEach_traced _ (S i) l res') as [log' r]; cbn [fst snd] in *.
    split; [done|]. split.
    + by apply prefix_app.
    + intros m Hm. by rewrite (IH3 m).
  - cbn [fst snd]. split; [done|]. split; [|done]. by eexists.
Qed.

Lemma elem_of_visits_of i interf v :
  v ∈ visits_of i interf ↔
  v = VisitEntry i ∨
  ∃ j n sch, v = VisitItem i j ∧ named_instance interf n ∧
    schema interf = Some sch ∧ j < length (items_of sch).
Proof.
  unfold visits_of. rewrite elem_of_cons.
  destruct (instance_key interf) as [n|] eqn:Hk.
  - apply instance_key_Some in Hk.
    destruct (schema interf) as [sch|] eqn:Hs.
    + rewrite list_elem_of_fmap. split.
      * intros [->|(j & -> & Hj)]; [by left|]. right.
        apply elem_of_seq in Hj. exists j, n, sch.
        split; [done|]. split; [done|]. split; [done|]. lia.
      * intros [->|(j & n' & sch' & -> & _ & [= <-] & Hj)]; [by left|].
        right. exists j. split; [done|]. apply elem_of_seq. lia.
    + split.
      * intros [->|[]%elem_of_nil]. by left.
      * intros [->|(j & n' & sch' & _ & _ & [=] & _)]. by left.
  - split.
    + intros [->|[]%elem_of_nil]. by left.
    + intros [->|(j & n' & sch' & _ & Hn & _)]; [by left|].
      apply instance_key_Some in Hn. congruence.
Qed.

Lemma visits_of_index i interf v : v ∈ visits_of i interf → visit_index v = i.
Proof.
  intros [->|(j & n & sch & -> & _)]%elem_of_visits_of; done.
Qed.

Lemma elem_of_visits_from i l v :
  v ∈ visits_from i l ↔
  ∃ k interf, l !! k = Some interf ∧ v ∈ visits_of (i + k) interf.
Proof.
  revert i. induction l as [|interf l IH]; intros i; cbn [visits_from].
  - split; [by intros []%elem_of_nil|]. by intros (k & e & [=] & _).
  - rewrite elem_of_app, IH. split.
    + intros [H|(k & e & Hk & H)].
      * exists 0, interf. by rewrite Nat.add_0_r.
      * exists (S k), e. by rewrite Nat.add_succ_r.
    + intros ([|k] & e & Hk & H).
      * left. injection Hk as <-. by rewrite Nat.add_0_r in H.
      * right. exists k, e. by rewrite Nat.add_succ_r in H.
Qed.

Lemma visits_from_index i l v : v ∈ visits_from i l → i ≤ visit_index v.
Proof.
  intros (k & e & _ & ->%visits_of_index)%elem_of_visits_from. lia.
Qed.

Lemma NoDup_visits_of i interf : NoDup (visits_of i interf).
Proof.
  unfold visits_of. apply list.NoDup_cons. split.
  - destruct (instance_key interf), (schema interf);
      try (by intros []%elem_of_nil).
    by intros (j & [=] & _)%list_elem_of_fmap.
  - destruct (instance_key interf), (schema interf); try apply NoDup_nil_2.
    apply NoDup_fmap_2; [|apply list.NoDup_seq]. by intros j1 j2 [=].
Qed.

Lemma NoDup_visits_from i l : NoDup (visits_from i l).
Proof.
  revert i. induction l as [|interf l IH]; intros i; cbn [visits_from].
  - apply NoDup_nil_2.
  - apply list.NoDup_app. split; [apply NoDup_visits_of|]. split; [|apply IH].
    intros v Hi%visits_of_index Hv%visits_from_index. lia.
Qed.

Lemma due_visits_from l v : due l v ↔ v ∈ visits_from 0 l.
Proof.
  rewrite elem_of_visits_from. destruct v as [i|i j]; simpl.
  - split.
    + intros [e He]%lookup_lt_is_Some. exists i, e. split; [done|].
      apply elem_of_visits_of. by left.
    + intros (k & e & Hk & [[= ->]|(?&?&?&[=]&_)]%elem_of_visits_of).
      by apply lookup_lt_is_Some.
  - split.
    + intros (e & n & sch & He & Hn & Hs & Hj). exists i, e. split; [done|].
      apply elem_of_visits_of. right. by exists j, n, sch.
    + intros (k & e & Hk & [[=]|(j'&n&sch&[= -> ->]&H)]%elem_of_visits_of).
      by exists e, n, sch.
Qed.

Lemma parse_interf_traced_eq pcb ccb i interf res :
  parse_interf_traced pcb ccb i interf res =
  (visits_of i interf, parse_interf pcb ccb interf res).
Proof.
  rewrite <-parse_interf_traced_fst with (pcb := pcb) (ccb := ccb) (res := res).
  rewrite <-parse_interf_traced_snd with (i := i).
  by destruct (parse_interf_traced pcb ccb i interf res).
Qed.

Lemma forEach_traced_throws_at pcb ccb i l1 interf l2 n res :
  all_have_schema l1 → named_instance interf n → schema interf = None →
  forEach_traced (parse_interf_traced pcb ccb) i (l1 ++ interf :: l2) res =
  (visits_from i l1 ++ [VisitEntry (i + length l1)], Throw TypeError).
Proof.
  intros Hall Hn Hs. revert i res Hall.
  induction l1 as [|e l1 IH]; intros i res Hall.
  - cbn [app forEach_traced visits_from length]. rewrite parse_interf_traced_eq.
    rewrite (parse_interf_throw _ _ _ _ n); [|by apply instance_key_Some|done].
    unfold visits_of. apply instance_key_Some in Hn. rewrite Hn, Hs.
    by rewrite Nat.add_0_r.
  - apply all_have_schema_cons in Hall as [He Hall].
    cbn [app forEach_traced visits_from length]. rewrite parse_interf_traced_eq.
    assert (∃ res', parse_interf pcb ccb e res = Normal res') as [res' ->].
    { destruct (instance_key e) as [k|] eqn:Hk.
      - destruct (He k) as [sch Hsch]; [by apply instance_key_Some|].
        rewrite (parse_interf_bind _ _ _ _ k sch) by done. by eexists.
      - rewrite parse_interf_skip by done. by eexists. }
    rewrite (IH (S i) res' Hall).
    by rewrite <-(assoc_L (++)), Nat.add_succ_r.
Qed.

Lemma forEach_parse_interf_Throw_first pcb ccb l res err :
  forEach (parse_interf pcb ccb) l res = Throw err →
  ∃ l1 interf l2 n, l = l1 ++ interf :: l2 ∧ all_have_schema l1 ∧
    named_instance interf n ∧ schema interf = None.
Proof.
  revert res. induction l as [|e l IH]; intros res; [done|].
  cbn [forEach]. destruct (instance_key e) as [k|] eqn:Hk.
  - destruct (schema e) as [sch|] eqn:Hs.
    + rewrite (parse_interf_bind _ _ _ _ k sch) by done.
      intros (l1 & interf & l2 & n & -> & Hall & Hn & Hnone)%IH.
      exists (e :: l1), interf, l2, n. split; [done|].
      split; [|done]. apply all_have_schema_cons. split; [|done].
      intros _ _. by eexists.
    + intros _. exists [], e, l, k. split; [done|].
      split; [by intros ?? []%elem_of_nil|].
      split; [by apply instance_key_Some|done].
  - rewrite parse_interf_skip by done.
    intros (l1 & interf & l2 & n & -> & Hall & Hn & Hnone)%IH.
    exists (e :: l1), interf, l2, n. split; [done|].
    split; [|done]. apply all_have_schema_cons. split; [|done].
    intros n' Hn'%instance_key_Some. congruence.
Qed.

Lemma due_app_l l l' v :
  due l v ↔ visit_index v < length l ∧ due (l ++ l') v.
Proof.
  destruct v as [i|i j]; simpl.
  - rewrite length_app. split; [lia|]. by intros [? _].
  - split.
    + intros (e & n & sch & He & H). split; [by eapply lookup_lt_Some|].
      exists e, n, sch. split; [|done]. by apply lookup_app_l_Some.
    + intros (Hi & e & n & sch & He & H). exists e, n, sch. split; [|done].
      by rewrite lookup_app_l in He.
Qed.

Lemma parse_traced_forEach cm pcb ccb :
  parse_traced cm pcb ccb =
  forEach_traced (parse_interf_traced pcb ccb) 0 (entries_of cm) ∅.
Proof.
  unfold parse_traced, entries_of. destruct cm as [[[l|]]|]; simpl; try done.
  case_bool_decide as Hl; [done|]. destruct l; [done|simpl in Hl; lia].
Qed.

(** C5 (as amended).  [parse] terminates on every input document, in a
    single walk that visits no entry and no item more than once, and only
    entries of [implements] and items of the [schema.contents] of named
    InterfaceInstance entries; when no error is raised it visits each
    entry of [implements] exactly once and each item of [schema.contents]
    exactly once for the entries that are InterfaceInstances with a
    non-empty name, the items of the other entries not at all; and when
    an entry raises, the walk has made these visits for the entries before
    it and has entered that entry, and no further entry is visited. *)
Theorem parse_visits cm pcb ccb :
  ∃ log,
    parse_traced cm pcb ccb = (log, parse cm pcb ccb) ∧
    NoDup log ∧
    (∀ v, v ∈ log → due (entries_of cm) v) ∧
    (∀ m, parse cm pcb ccb = Normal m →
       ∀ v, v ∈ log ↔ due (entries_of cm) v) ∧
    (∀ err, parse cm pcb ccb = Throw err →
       ∃ i interf n, entries_of cm !! i = Some interf ∧
         named_instance interf n ∧ schema interf = None ∧
         ∀ v, v ∈ log ↔
              v = VisitEntry i ∨ (visit_index v < i ∧ due (entries_of cm) v)).
Proof.
  rewrite parse_traced_forEach, parse_forEach.
  destruct (forEach_parse_interf_traced pcb ccb 0 (entries_of cm) ∅)
    as (H1 & H2 & H3).
  destruct (forEach_traced _ 0 (entries_of cm) ∅) as [log r] eqn:Hrun;
    cbn [fst snd] in *.
  exists log. rewrite <-H1. split; [done|].
  destruct H2 as [k Hk]. split; [|split; [|split]].
  - pose proof (NoDup_visits_from 0 (entries_of cm)) as Hnd.
    rewrite Hk in Hnd. by apply list.NoDup_app in Hnd as [? _].
  - intros v Hv. apply due_visits_from. rewrite Hk. apply elem_of_app. by left.
  - intros m Hm v. rewrite (H3 m Hm). symmetry. apply due_visits_from.
  - intros err Herr. rewrite H1 in Herr.
    destruct (forEach_parse_interf_Throw_first _ _ _ _ _ Herr)
      as (l1 & interf & l2 & n & Hl & Hall & Hn & Hs).
    exists (length l1), interf, n.
    split; [rewrite Hl; by apply list_lookup_middle|].
    split; [done|]. split; [done|].
    rewrite Hl in Hrun |- *.
    rewrite (forEach_traced_throws_at _ _ _ _ _ _ n) in Hrun by done.
    injection Hrun as <- _. intros v.
    rewrite elem_of_app, list_elem_of_singleton, <-due_visits_from.
    rewrite (due_app_l l1 (interf :: l2)). tauto.
Qed.

Lemma parse_visits_witness :
  (∃ log, parse_traced doc_device None None = (log, parse doc_device None None) ∧
     NoDup log ∧
     ∀ v, v ∈ log ↔ due (entries_of doc_device) v) ∧
  (∃ log, parse_traced doc_no_schema_first None None =
            (log, parse doc_no_schema_first None None) ∧
     ∃ i interf n, entries_of doc_no_schema_first !! i = Some interf ∧
       named_instance interf n ∧ schema interf = None ∧
       ∀ v, v ∈ log ↔
            v = VisitEntry i ∨
            (visit_index v < i ∧ due (entries_of doc_no_schema_first) v)).
Proof.
  split.
  - destruct (parse_visits doc_device None None)
      as (log & Hrun & Hnd & _ & Hall & _).
    exists log. split; [exact Hrun|]. split; [exact Hnd|].
    eapply Hall. reflexivity.
  - destruct (parse_visits doc_no_schema_first None None)
      as (log & Hrun & _ & _ & _ & Hthrow).
    exists log. split; [exact Hrun|].
    apply (Hthrow TypeError). reflexivity.
Defined.

(** C5 as stated fails: the item of an entry that is not an interface
    instance is never visited, and after an entry that raises no later
    entry is visited. *)
Lemma parse_visits_counterexample :
  ((∃ interf sch it, entries_of doc_skipped !! 0 = Some interf ∧
      schema interf = Some sch ∧ contents sch = Some [it]) ∧
   parse_traced doc_skipped None None = ([VisitEntry 0], Normal ∅) ∧
   VisitItem 0 0 ∉ (parse_traced doc_skipped None None).1) ∧
  (length (entries_of doc_no_schema_first) = 2 ∧
   parse_traced doc_no_schema_first None None = ([VisitEntry 0], Throw TypeError) ∧
   VisitEntry 1 ∉ (parse_traced doc_no_schema_first None None).1).
Proof.
  split.
  - split; [by eexists _, _, _|]. split; [reflexivity|].
    intros [[=]|[]%elem_of_nil]%elem_of_cons.
  - split; [reflexivity|]. split; [reflexivity|].
    intros [[=]|[]%elem_of_nil]%elem_of_cons.
Qed.

(** * The store model *)

(** ** What a call leaves untouched *)

Lemma extends_refl h : extends h h.
Proof. split; [done|]. intros l o H1 H2. congruence. Qed.

Lemma extends_insert h0 h l o :
  h0 !! l = None → built o → extends h0 h → extends h0 (<[l := o]> h).
Proof.
  intros Hl Ho [Hsub Hnew]. split; [by apply insert_subseteq_r|].
  intros l' o' Hl' Hl0. destruct (decide (l = l')) as [->|Hne].
  - rewrite lookup_insert_eq in Hl'. by injection Hl' as <-.
  - rewrite lookup_insert_ne in Hl' by done. by apply (Hnew l').
Qed.

Section frame.

(** The store [parse] is called in. *)
Context (h0 : Heap.heap).

Lemma keeps_ret {A} (a : A) : keeps h0 (mret a).
Proof. by intros h Hh. Qed.

Lemma keeps_raise {A} e : keeps h0 (@Heap.raise A e).
Proof. by intros h Hh. Qed.

Lemma keeps_stuck {A} : keeps h0 (@Heap.stuck A).
Proof. by intros h Hh. Qed.

Lemma keeps_read l : keeps h0 (Heap.read l).
Proof. intros h Hh. unfold Heap.read. by destruct (h !! l). Qed.

Lemma keeps_write l o :
  h0 !! l = None → built o → keeps h0 (Heap.write l o).
Proof. intros Hl Ho h Hh. simpl. by apply extends_insert. Qed.

Lemma keeps_bind {A B} (m : Heap.M A) (f : A → Heap.M B) :
  keeps h0 m → (∀ a, keeps h0 (f a)) → keeps h0 (m ≫= f).
Proof.
  intros Hm Hf h Hh. unfold mbind, Heap.M_bind. specialize (Hm h Hh).
  destruct (m h) as [[a|e|] h']; simpl in *; [by apply Hf|done..].
Qed.

(** The same when the continuation may rely on the value being a fresh
    location. *)
Lemma keeps_alloc_bind {B} o (f : Heap.loc → Heap.M B) :
  built o →
  (∀ l, h0 !! l = None → keeps h0 (f l)) → keeps h0 (Heap.alloc o ≫= f).
Proof.
  intros Ho Hf h Hh. unfold mbind, Heap.M_bind, Heap.alloc.
  assert (h0 !! fresh (dom h) = None) as Hfresh.
  { destruct (h0 !! fresh (dom h)) as [o'|] eqn:E; [|done].
    apply (lookup_weaken _ h) in E; [|apply Hh].
    destruct (is_fresh (dom h)). apply elem_of_dom. by eexists. }
  apply Hf; [done|]. by apply extends_insert.
Qed.

Lemma keeps_forEach {A} (f : A → Heap.M unit) l :
  (∀ x, keeps h0 (f x)) → keeps h0 (Heap.forEach f l).
Proof.
  intros Hf. induction l as [|x l IH]; [apply keeps_ret|].
  apply keeps_bind; [apply Hf|done].
Qed.

Lemma keeps_forEach_array f arr :
  (∀ x, keeps h0 (f x)) → keeps h0 (Heap.forEach_array f arr).
Proof.
  intros Hf. apply keeps_bind; [apply keeps_read|].
  intros []; try apply keeps_stuck.
  case_bool_decide; [by apply keeps_forEach|apply keeps_ret].
Qed.

Lemma keeps_method f cInf : h0 !! cInf = None → keeps h0 (Heap.method f cInf).
Proof.
  intros Hc. apply keeps_bind; [apply keeps_read|].
  intros []; try apply keeps_stuck. by apply keeps_write.
Qed.

Lemma keeps_set_member res n cInf :
  h0 !! res = None → keeps h0 (Heap.set_member res n cInf).
Proof.
  intros Hc. apply keeps_bind; [apply keeps_read|].
  intros []; try apply keeps_stuck. by apply keeps_write.
Qed.

Lemma keeps_parse_item cInf item :
  h0 !! cInf = None → keeps h0 (Heap.parse_item cInf item).
Proof.
  intros Hc. apply keeps_bind; [apply keeps_read|].
  intros []; try apply keeps_stuck.
  repeat (destruct (_ && _); [by apply keeps_method|]). apply keeps_ret.
Qed.

Lemma keeps_parse_interf pcb ccb res interf :
  h0 !! res = None → keeps h0 (Heap.parse_interf pcb ccb res interf).
Proof.
  intros Hr. apply keeps_bind; [apply keeps_read|].
  intros [| |ty name id sch| | | |]; try apply keeps_stuck.
  destruct (strict_eq _ _); [|apply keeps_ret].
  destruct name as [n|]; [|apply keeps_ret].
  destruct (_ && _); [|apply keeps_ret].
  apply keeps_alloc_bind; [done|]. intros cInf Hc.
  apply keeps_bind; [|intros _; by apply keeps_set_member].
  destruct sch as [s|]; [|apply keeps_raise].
  apply keeps_bind; [apply keeps_read|].
  intros [| | |[items|]| | |]; try apply keeps_stuck; [|apply keeps_ret].
  apply keeps_forEach_array. intros item. by apply keeps_parse_item.
Qed.

Lemma keeps_parse cm pcb ccb : keeps h0 (Heap.parse cm pcb ccb).
Proof.
  apply keeps_alloc_bind; [done|]. intros res Hr.
  apply keeps_bind; [|intros _; apply keeps_ret].
  destruct cm as [cm|]; [|apply keeps_ret].
  apply keeps_bind; [apply keeps_read|].
  intros [[entries|]| | | | | |]; try apply keeps_stuck; [|apply keeps_ret].
  apply keeps_forEach_array. intros interf. by apply keeps_parse_interf.
Qed.

End frame.

(** ** Reading back from a larger store *)

Lemma mapM_mono {A B} (f g : A → option B) l k :
  (∀ x y, f x = Some y → g x = Some y) →
  mapM f l = Some k → mapM g l = Some k.
Proof.
  intros Hfg. rewrite !mapM_Some. apply Forall2_impl. exact Hfg.
Qed.

Lemma load_optional_mono {A} (f g : Heap.loc → option A) r x :
  (∀ l y, f l = Some y → g l = Some y) →
  Heap.load_optional f r = Some x → Heap.load_optional g r = Some x.
Proof.
  intros Hfg. destruct r as [l|]; simpl; [|done].
  destruct (f l) as [y|] eqn:E; [|done]. by rewrite (Hfg l y).
Qed.

Lemma load_array_mono {A} (f g : Heap.loc → option A) h h' l k :
  h ⊆ h' → (∀ x y, f x = Some y → g x = Some y) →
  Heap.load_array f h l = Some k → Heap.load_array g h' l = Some k.
Proof.
  intros Hh Hfg. unfold Heap.load_array.
  destruct (h !! l) as [o|] eqn:E; [|done].
  rewrite (lookup_weaken _ _ _ _ E Hh).
  destruct o; try done. by apply mapM_mono.
Qed.

Lemma load_item_mono h h' l x :
  h ⊆ h' → Heap.load_item h l = Some x → Heap.load_item h' l = Some x.
Proof.
  intros Hh. unfold Heap.load_item.
  destruct (h !! l) as [o|] eqn:E; [|done].
  by rewrite (lookup_weaken _ _ _ _ E Hh).
Qed.

Lemma load_schema_mono h h' l x :
  h ⊆ h' → Heap.load_schema h l = Some x → Heap.load_schema h' l = Some x.
Proof.
  intros Hh. unfold Heap.load_schema.
  destruct (h !! l) as [o|] eqn:E; [|done].
  rewrite (lookup_weaken _ _ _ _ E Hh). destruct o as [| | |cts| | |]; try done.
  destruct (Heap.load_optional _ cts) as [c|] eqn:Ec; [|done].
  erewrite load_optional_mono; [done| |exact Ec].
  intros ??. apply load_array_mono; [done|]. intros ??. by apply load_item_mono.
Qed.

Lemma load_interface_mono h h' l x :
  h ⊆ h' → Heap.load_interface h l = Some x → Heap.load_interface h' l = Some x.
Proof.
  intros Hh. unfold Heap.load_interface.
  destruct (h !! l) as [o|] eqn:E; [|done].
  rewrite (lookup_weaken _ _ _ _ E Hh).
  destruct o as [| |ty n id sch| | | |]; try done.
  destruct (Heap.load_optional _ sch) as [c|] eqn:Ec; [|done].
  erewrite load_optional_mono; [done| |exact Ec].
  intros ??. by apply load_schema_mono.
Qed.

Lemma load_model_mono h h' l x :
  h ⊆ h' → Heap.load_model h l = Some x → Heap.load_model h' l = Some x.
Proof.
  intros Hh. unfold Heap.load_model.
  destruct (h !! l) as [o|] eqn:E; [|done].
  rewrite (lookup_weaken _ _ _ _ E Hh). destruct o as [impl| | | | | |]; try done.
  destruct (Heap.load_optional _ impl) as [c|] eqn:Ec; [|done].
  erewrite load_optional_mono; [done| |exact Ec].
  intros ??. apply load_array_mono; [done|].
  intros ??. by apply load_interface_mono.
Qed.

Lemma load_mono h h' root cm :
  h ⊆ h' → Heap.load h root = Some cm → Heap.load h' root = Some cm.
Proof.
  intros Hh. apply load_optional_mono. intros ??. by apply load_model_mono.
Qed.

(** ** The walk over the store computes [parse] *)

Lemma Normal_inj {A} (a b : A) : Normal a = Normal b → a = b.
Proof. congruence. Qed.

Lemma method_run h cInf c f :
  h !! cInf = Some (Heap.ODescriptor c) →
  Heap.method f cInf h = (Heap.Ret tt, <[cInf := Heap.ODescriptor (f c)]> h).
Proof.
  intros Hc. unfold Heap.method, mbind, Heap.M_bind, Heap.read. by rewrite Hc.
Qed.

Lemma load_item_insert_descriptor h cInf c d x :
  h !! cInf = Some (Heap.ODescriptor c) →
  Heap.load_item (<[cInf := Heap.ODescriptor d]> h) x = Heap.load_item h x.
Proof.
  intros Hc. unfold Heap.load_item. destruct (decide (cInf = x)) as [->|Hne].
  - by rewrite lookup_insert_eq, Hc.
  - by rewrite lookup_insert_ne.
Qed.

Lemma parse_item_run h cInf c item it :
  h !! cInf = Some (Heap.ODescriptor c) →
  Heap.load_item h item = Some it →
  Heap.parse_item cInf item h =
  (Heap.Ret tt, <[cInf := Heap.ODescriptor (add_items [it] c)]> h).
Proof.
  intros Hc Hit. unfold Heap.load_item in Hit.
  destruct (h !! item) as [[| | | |ty n w| |]|] eqn:Hitem; try done.
  injection Hit as <-.
  pose proof (parse_item_spec
                {| item_type := ty; item_name := n; item_writable := w |} c) as Hp.
  unfold parse_item in Hp. simpl in Hp.
  unfold Heap.parse_item, mbind, Heap.M_bind, Heap.read. rewrite Hitem.
  revert Hp.
  repeat (destruct (_ && _);
          [intros Hp; rewrite <-(Normal_inj _ _ Hp); by apply method_run|]).
  intros Hp. rewrite <-(Normal_inj _ _ Hp). simpl. by rewrite insert_id.

Qed.

Lemma forEach_parse_item_run h cInf c items its :
  h !! cInf = Some (Heap.ODescriptor c) →
  mapM (Heap.load_item h) items = Some its →
  Heap.forEach (Heap.parse_item cInf) items h =
  (Heap.Ret tt, <[cInf := Heap.ODescriptor (add_items its c)]> h).
Proof.
  intros Hc Hits. apply mapM_Some in Hits. revert h c its Hc Hits.
  induction items as [|item items IH]; intros h c its Hc Hits.
  - apply Forall2_nil_inv_l in Hits as ->. simpl.
    by rewrite add_items_nil, insert_id.
  - apply Forall2_cons_inv_l in Hits as (it & its' & Hit & Hits & ->).
    cbn [Heap.forEach]. unfold mbind, Heap.M_bind.
    rewrite (parse_item_run h cInf c item it) by done.
    rewrite (IH _ (add_items [it] c) its').
    + by rewrite insert_insert_eq, <-add_items_app.
    + apply lookup_insert_eq.
    + eapply Forall2_impl; [|exact Hits]. intros x y Hx. simpl in Hx.
      by rewrite (load_item_insert_descriptor h cInf c).
Qed.

Lemma forEach_array_parse_item_run h cInf c arr its :
  h !! cInf = Some (Heap.ODescriptor c) →
  Heap.load_array (Heap.load_item h) h arr = Some its →
  Heap.forEach_array (Heap.parse_item cInf) arr h =
  (Heap.Ret tt, <[cInf := Heap.ODescriptor (add_items its c)]> h).
Proof.
  intros Hc Hits. unfold Heap.load_array in Hits.
  destruct (h !! arr) as [[|elems| | | | |]|] eqn:Harr; try done.
  unfold Heap.forEach_array, mbind, Heap.M_bind, Heap.read. rewrite Harr.
  case_bool_decide as Hlen; [by apply forEach_parse_item_run|].
  destruct elems; [|simpl in Hlen; lia]. simpl in Hits. injection Hits as <-.
  simpl. by rewrite add_items_nil, insert_id.
Qed.

Lemma load_result_set h res m mp cInf d n :
  h !! res = Some (Heap.OResult m) →
  Heap.load_result h res = Some mp →
  h !! cInf = None →
  Heap.load_result
    (<[res := Heap.OResult (<[n := cInf]> m)]> (<[cInf := Heap.ODescriptor d]> h))
    res = Some (<[n := d]> mp).
Proof.
  intros Hres Hmp Hfresh. unfold Heap.load_result in *. rewrite Hres in Hmp.
  case_decide as Hall; [|done]. injection Hmp as <-.
  rewrite lookup_insert_eq.
  assert (res ≠ cInf) as Hne by congruence.
  set (h' := <[res := _]> _).
  assert (Heap.load_descriptor h' cInf = Some d) as Hd.
  { unfold Heap.load_descriptor, h'.
    by rewrite lookup_insert_ne, lookup_insert_eq. }
  assert (∀ k l, m !! k = Some l →
            Heap.load_descriptor h' l = Heap.load_descriptor h l) as Hsame.
  { intros k l Hk. destruct (Hall k l Hk) as [c Hc].
    unfold Heap.load_descriptor in *. unfold h'.
    destruct (h !! l) as [o|] eqn:Hl; [|done].
    destruct o; try done.
    rewrite lookup_insert_ne, lookup_insert_ne; [by rewrite Hl| |];
      congruence. }
  rewrite decide_True.
  - f_equal. apply map_eq. intros k. rewrite lookup_omap.
    destruct (decide (n = k)) as [->|Hnk].
    + by rewrite !lookup_insert_eq.
    + rewrite !lookup_insert_ne by done. rewrite lookup_omap.
      destruct (m !! k) as [l|] eqn:Hk; [|done]. simpl. by apply (Hsame k).
  - apply map_Forall_insert_2; [by rewrite Hd|].
    intros k l Hk. rewrite (Hsame k l Hk). by apply (Hall k).
Qed.

Lemma load_result_lookup h res mp :
  Heap.load_result h res = Some mp → ∃ m, h !! res = Some (Heap.OResult m).
Proof.
  unfold Heap.load_result.
  destruct (h !! res) as [[| | | | | |m]|]; try done. by exists m.
Qed.

Lemma load_interface_inv h interf e :
  Heap.load_interface h interf = Some e →
  ∃ sch, h !! interf =
           Some (Heap.OInterface (interf_type e) (interf_name e) (interf_id e) sch) ∧
    Heap.load_optional (Heap.load_schema h) sch = Some (schema e).
Proof.
  unfold Heap.load_interface.
  destruct (h !! interf) as [[| |ty name id sch| | | |]|]; try done.
  destruct (Heap.load_optional (Heap.load_schema h) sch) as [s|] eqn:Hs;
    [|done].
  simpl. intros [= <-]. by exists sch.
Qed.

Lemma heap_parse_interf_skip h pcb ccb res interf e :
  Heap.load_interface h interf = Some e →
  instance_key e = None →
  Heap.parse_interf pcb ccb res interf h = (Heap.Ret tt, h).
Proof.
  intros (sch & Hi & _)%load_interface_inv Hk.
  unfold Heap.parse_interf, mbind, Heap.M_bind, Heap.read. rewrite Hi.
  eval_guards Hk; done.
Qed.

Lemma heap_parse_interf_named h pcb ccb res interf e n :
  Heap.load_interface h interf = Some e →
  instance_key e = Some n →
  ∃ sch, Heap.load_optional (Heap.load_schema h) sch = Some (schema e) ∧
    Heap.parse_interf pcb ccb res interf h =
    (cInf ← Heap.alloc (Heap.ODescriptor
                          (CommonInterface.new n (interf_id e) pcb ccb));
     _ ← match sch with
         | Some s =>
             so ← Heap.read s;
             match so with
             | Heap.OSchema (Some items) =>
                 Heap.forEach_array (Heap.parse_item cInf) items
             | Heap.OSchema None => mret tt
             | _ => Heap.stuck
             end
         | None => Heap.raise TypeError
         end;
     Heap.set_member res n cInf) h.
Proof.
  intros (sch & Hi & Hs)%load_interface_inv Hk%instance_key_Some.
  exists sch. split; [done|].
  unfold Heap.parse_interf. unfold mbind at 1, Heap.M_bind at 1, Heap.read at 1.
  rewrite Hi. by eval_guards Hk.
Qed.

Lemma heap_parse_interf_throw h pcb ccb res interf e n :
  Heap.load_interface h interf = Some e →
  instance_key e = Some n → schema e = None →
  ∃ h', Heap.parse_interf pcb ccb res interf h = (Heap.Raise TypeError, h').
Proof.
  intros He Hk Hs.
  destruct (heap_parse_interf_named h pcb ccb res interf e n He Hk)
    as (sch & Hsch & ->).
  rewrite Hs in Hsch. destruct sch as [sl|]; simpl in Hsch.
  { by destruct (Heap.load_schema h sl). }
  by eexists.
Qed.

Lemma heap_parse_interf_bind h pcb ccb res interf e n sch m mp :
  Heap.load_interface h interf = Some e →
  instance_key e = Some n → schema e = Some sch →
  h !! res = Some (Heap.OResult m) →
  Heap.load_result h res = Some mp →
  ∃ h', Heap.parse_interf pcb ccb res interf h = (Heap.Ret tt, h') ∧
    Heap.load_result h' res =
    Some (<[n := descriptor pcb ccb n (interf_id e) (items_of sch)]> mp).
Proof.
  intros He Hk Hs Hres Hmp.
  destruct (heap_parse_interf_named h pcb ccb res interf e n He Hk)
    as (sl & Hsch & ->).
  rewrite Hs in Hsch. destruct sl as [sl|]; simpl in Hsch; [|done].
  destruct (Heap.load_schema h sl) as [s0|] eqn:Hs0; [|done].
  injection Hsch as ->. unfold Heap.load_schema in Hs0.
  destruct (h !! sl) as [[| | |cts| | |]|] eqn:Hsl; try done.
  destruct (Heap.load_optional _ cts) as [c0|] eqn:Hc0; [|done].
  simpl in Hs0. injection Hs0 as <-. unfold items_of. simpl.
  unfold mbind at 1, Heap.M_bind at 1, Heap.alloc.
  set (cInf := fresh (dom h)).
  assert (h !! cInf = None) as Hfresh by apply not_elem_of_dom, is_fresh.
  set (new := CommonInterface.new n (interf_id e) pcb ccb).
  set (h1 := <[cInf := Heap.ODescriptor new]> h).
  assert (h ⊆ h1) as Hsub by by apply insert_subseteq.
  assert (∀ d, Heap.set_member res n cInf (<[cInf := Heap.ODescriptor d]> h) =
            (Heap.Ret tt, <[res := Heap.OResult (<[n := cInf]> m)]>
                            (<[cInf := Heap.ODescriptor d]> h))) as Hset.
  { intros d. unfold Heap.set_member, mbind, Heap.M_bind, Heap.read.
    rewrite lookup_insert_ne by congruence. by rewrite Hres. }
  unfold mbind at 1, Heap.M_bind at 1.
  unfold mbind at 1, Heap.M_bind at 1, Heap.read at 1.
  rewrite (lookup_weaken _ _ _ _ Hsl Hsub).
  destruct cts as [arr|]; simpl in Hc0.
  - destruct (Heap.load_array _ h arr) as [its|] eqn:Harr; [|done].
    injection Hc0 as <-.
    rewrite (forEach_array_parse_item_run h1 cInf new arr its).
    + unfold h1. rewrite insert_insert_eq, Hset.
      eexists. split; [done|]. simpl. by apply load_result_set.
    + apply lookup_insert_eq.
    + eapply load_array_mono; [exact Hsub| |exact Harr].
      intros ??. by apply load_item_mono.
  - injection Hc0 as <-. simpl. unfold h1. rewrite Hset.
    eexists. split; [done|]. by apply load_result_set.
Qed.

Lemma parse_interf_run h pcb ccb res interf e mp :
  Heap.load_interface h interf = Some e →
  Heap.load_result h res = Some mp →
  ∃ h',
    Heap.parse_interf pcb ccb res interf h =
      (outcome_of (parse_interf pcb ccb e mp), h') ∧
    ∀ mp', parse_interf pcb ccb e mp = Normal mp' →
      Heap.load_result h' res = Some mp'.
Proof.
  intros He Hmp. destruct (load_result_lookup _ _ _ Hmp) as [m Hres].
  destruct (instance_key e) as [n|] eqn:Hk.
  - destruct (schema e) as [sch|] eqn:Hs.
    + rewrite (parse_interf_bind _ _ _ _ n sch) by done.
      destruct (heap_parse_interf_bind h pcb ccb res interf e n sch m mp)
        as (h' & Hrun & Hload); try done.
      exists h'. split; [done|]. by intros mp' [= <-].
    + rewrite (parse_interf_throw _ _ _ _ n) by done.
      destruct (heap_parse_interf_throw h pcb ccb res interf e n)
        as (h' & Hrun); try done.
      exists h'. by split.
  - rewrite parse_interf_skip by done. exists h.
    split; [by apply (heap_parse_interf_skip _ _ _ _ _ e)|].
    by intros mp' [= <-].
Qed.

Lemma forEach_parse_interf_run h0 pcb ccb res entries es :
  mapM (Heap.load_interface h0) entries = Some es →
  h0 !! res = None →
  ∀ h mp, extends h0 h → Heap.load_result h res = Some mp →
  ∃ h', extends h0 h' ∧
    Heap.forEach (Heap.parse_interf pcb ccb res) entries h =
      (outcome_of (forEach (parse_interf pcb ccb) es mp), h') ∧
    ∀ mp', forEach (parse_interf pcb ccb) es mp = Normal mp' →
      Heap.load_result h' res = Some mp'.
Proof.
  intros Hes Hres. apply mapM_Some in Hes.
  induction Hes as [|interf e entries es He Hes IH]; intros h mp Hext Hmp.
  { exists h. split; [done|]. split; [done|]. by intros mp' [= <-]. }
  assert (Heap.load_interface h interf = Some e) as He'
    by (eapply load_interface_mono; [apply Hext|done]).
  destruct (parse_interf_run h pcb ccb res interf e mp He' Hmp)
    as (h1 & Hrun & Hload).
  pose proof (keeps_parse_interf h0 pcb ccb res interf Hres h Hext) as Hext1.
  rewrite Hrun in Hext1. simpl in Hext1.
  cbn [forEach Heap.forEach]. unfold mbind at 1, Heap.M_bind. rewrite Hrun.
  destruct (parse_interf pcb ccb e mp) as [mp1|err]; simpl.
  - by apply IH, Hload.
  - exists h1. by split.
Qed.

Lemma load_result_new h res :
  Heap.load_result (<[res := Heap.OResult ∅]> h) res = Some ∅.
Proof.
  unfold Heap.load_result. rewrite lookup_insert_eq.
  rewrite decide_True by apply map_Forall_empty. by rewrite omap_empty.
Qed.

Lemma parse_run h pcb ccb root cm :
  Heap.load h root = Some cm →
  ∃ res h', extends h h' ∧ h !! res = None ∧
    Heap.parse root pcb ccb h =
      (match parse cm pcb ccb with
       | Normal _ => Heap.Ret res
       | Throw err => Heap.Raise err
       end, h') ∧
    ∀ m, parse cm pcb ccb = Normal m → Heap.load_result h' res = Some m.
Proof.
  intros Hcm. unfold Heap.parse.
  unfold mbind at 1, Heap.M_bind at 1, Heap.alloc.
  set (res := fresh (dom h)). exists res.
  assert (h !! res = None) as Hfresh by apply not_elem_of_dom, is_fresh.
  set (h1 := <[res := Heap.OResult ∅]> h).
  assert (extends h h1) as Hext1
    by (apply extends_insert; [done..|apply extends_refl]).
  pose proof (load_result_new h res) as Hnew. fold h1 in Hnew.
  assert (parse cm pcb ccb = Normal ∅ →
          ∃ h', extends h h' ∧ h !! res = None ∧
            (Heap.Ret res, h1) =
              (match parse cm pcb ccb with
               | Normal _ => Heap.Ret res
               | Throw err => Heap.Raise err
               end, h') ∧
            ∀ m, parse cm pcb ccb = Normal m →
              Heap.load_result h' res = Some m) as Hempty.
  { intros Hp. exists h1. rewrite Hp.
    split; [done|]. split; [done|]. split; [done|]. by intros m [= <-]. }
  destruct root as [l|]; simpl in Hcm; [|injection Hcm as <-; by apply Hempty].
  destruct (Heap.load_model h l) as [c|] eqn:Hc; [|done].
  injection Hcm as <-. unfold Heap.load_model in Hc.
  destruct (h !! l) as [[impl| | | | | |]|] eqn:Hl; try done.
  destruct (Heap.load_optional _ impl) as [i|] eqn:Hi; [|done].
  simpl in Hc. injection Hc as <-.
  unfold mbind at 1, Heap.M_bind at 1.
  unfold mbind at 1, Heap.M_bind at 1, Heap.read at 1.
  rewrite (lookup_weaken _ _ _ _ Hl (proj1 Hext1)).
  destruct impl as [arr|]; simpl in Hi; [|injection Hi as <-; by apply Hempty].
  destruct (Heap.load_array _ h arr) as [es|] eqn:Harr; [|done].
  injection Hi as <-. unfold Heap.load_array in Harr.
  destruct (h !! arr) as [[|entries| | | | |]|] eqn:Ha; try done.
  unfold Heap.forEach_array, mbind at 1, Heap.M_bind at 1, Heap.read.
  rewrite (lookup_weaken _ _ _ _ Ha (proj1 Hext1)).
  pose proof (length_mapM _ _ _ Harr) as Hlength.
  case_bool_decide as Hlen.
  - destruct (forEach_parse_interf_run h pcb ccb res entries es Harr
                Hfresh h1 ∅ Hext1 Hnew) as (h' & Hext' & Hrun & Hload).
    exists h'. split; [done|]. split; [done|].
    rewrite Hrun. unfold parse. simpl.
    rewrite bool_decide_true by lia.
    split; [|done]. by destruct (forEach (parse_interf pcb ccb) es ∅).
  - apply Hempty. unfold parse. simpl. by rewrite bool_decide_false by lia.
Qed.

Lemma observe_parse h pcb ccb root cm :
  Heap.load h root = Some cm →
  Heap.observe (Heap.parse root pcb ccb h) = Some (parse cm pcb ccb).
Proof.
  intros Hcm.
  destruct (parse_run h pcb ccb root cm Hcm) as (res & h' & _ & _ & -> & Hload).
  destruct (parse cm pcb ccb) as [m|err]; [|done].
  simpl. by rewrite (Hload m).
Qed.

(** * The claims about what a call depends on and what it changes *)

(** C6.  [parse] is stateless and deterministic: what a call returns or
    throws is a function of the document and the callbacks alone.  Two
    calls on structurally equal documents, in any two stores and wherever
    the documents are kept, yield equal interface maps (or the same
    error), and so does a second call made in the store the first call
    left behind. *)
Theorem parse_deterministic h1 h2 root1 root2 cm pcb ccb :
  Heap.load h1 root1 = Some cm →
  Heap.load h2 root2 = Some cm →
  Heap.observe (Heap.parse root1 pcb ccb h1) = Some (parse cm pcb ccb) ∧
  Heap.observe (Heap.parse root2 pcb ccb h2) =
    Heap.observe (Heap.parse root1 pcb ccb h1) ∧
  Heap.observe (Heap.parse root1 pcb ccb (Heap.parse root1 pcb ccb h1).2) =
    Heap.observe (Heap.parse root1 pcb ccb h1).
Proof.
  intros Hcm1 Hcm2.
  rewrite (observe_parse h1 pcb ccb root1 cm), (observe_parse h2 pcb ccb root2 cm)
    by done.
  split; [done|]. split; [done|].
  apply observe_parse. eapply load_mono; [|exact Hcm1].
  apply (keeps_parse h1 root1 pcb ccb h1), extends_refl.
Qed.

Lemma parse_deterministic_witness :
  Heap.observe (Heap.parse (Some 1%positive) (Some 1) (Some 2) store_device) =
    Some (parse doc_device (Some 1) (Some 2)) ∧
  Heap.observe (Heap.parse (Some 40%positive) (Some 1) (Some 2) store_device') =
    Heap.observe (Heap.parse (Some 1%positive) (Some 1) (Some 2) store_device) ∧
  Heap.observe
    (Heap.parse (Some 1%positive) (Some 1) (Some 2)
       (Heap.parse (Some 1%positive) (Some 1) (Some 2) store_device).2) =
    Heap.observe (Heap.parse (Some 1%positive) (Some 1) (Some 2) store_device).
Proof.
  apply (parse_deterministic store_device store_device'
           (Some 1%positive) (Some 40%positive) doc_device (Some 1) (Some 2)).
  - vm_compute. reflexivity.
  - vm_compute. reflexivity.
Defined.

(** C7.  [parse] never mutates its [capabilityModel] argument: after any
    call, returning or throwing, every object that was in the store is
    there unchanged, so the document reads back as before; the objects
    the call adds are the result map and the descriptors. *)
Theorem parse_frame h root pcb ccb :
  let h' := (Heap.parse root pcb ccb h).2 in
  (∀ l o, h !! l = Some o → h' !! l = Some o) ∧
  (∀ l o, h' !! l = Some o → h !! l = None → built o) ∧
  (∀ cm, Heap.load h root = Some cm → Heap.load h' root = Some cm).
Proof.
  intros h'.
  destruct (keeps_parse h root pcb ccb h (extends_refl h)) as [Hsub Hnew].
  fold h' in Hsub, Hnew. split; [|split].
  - intros l o Hl. by apply (lookup_weaken h).
  - exact Hnew.
  - intros cm. by apply load_mono.
Qed.

Lemma parse_frame_witness :
  Heap.load (Heap.parse (Some 1%positive) None None store_device).2
    (Some 1%positive) = Some doc_device.
Proof.
  apply (proj2 (proj2 (parse_frame store_device (Some 1%positive) None None))).
  vm_compute. reflexivity.
Defined.

(** * The claim about the call styles of the façade *)

(** C4.  Each operation of the façade (connect, disconnect, sendTelemetry,
    sendProperty, acknowledge, update, report) is declared in a
    promise-returning form, without callback and returning
    [Promise<Result>], and in a callback form, returning [void] and
    taking a [SendCallback] after the same parameters; and in the façade
    a call with a callback hands the callback the outcome that the same
    call without one settles its promise with, which is the outcome of
    the injected implementation the call is forwarded to, left in the
    same state in both styles. *)
Theorem facade_call_styles :
  Forall (λ '(m, decls), both_forms decls m) facade_operations ∧
  ∀ (Any Args Error Transport : Type)
    (forward : Facade.Operation → Args → Transport →
               (Error + @Facade.Result Any) * Transport)
    op args t,
    let by_promise := Facade.call forward op args false t in
    let by_callback := Facade.call forward op args true t in
    (∃ p, by_promise.1 = Facade.ReturnsPromise p) ∧
    (∃ d, by_callback.1 = Facade.ReturnsVoid d) ∧
    Facade.told by_callback.1 = Facade.told by_promise.1 ∧
    Facade.told by_promise.1 = Some (forward op args t).1 ∧
    by_callback.2 = by_promise.2 ∧
    by_promise.2 = (forward op args t).2.
Proof.
  split.
  - unfold facade_operations. repeat (constructor; [compute_done|]).
    constructor.
  - intros Any Args Error Transport forward op args t. unfold Facade.call.
    destruct (forward op args t) as [[err|result] t']; simpl;
      repeat split; by eexists.
Qed.

(** * Further properties of [parse] *)

(** ** Composing and pruning documents *)

Lemma bind_entry_union pcb ccb interf m res :
  bind_entry pcb ccb interf (m ∪ res) = bind_entry pcb ccb interf m ∪ res.
Proof.
  unfold bind_entry. destruct (instance_key interf); [|done].
  destruct (schema interf); [|done]. by rewrite insert_union_l.
Qed.

Lemma bind_entries_union pcb ccb l m res :
  bind_entries pcb ccb l (m ∪ res) = bind_entries pcb ccb l m ∪ res.
Proof.
  revert m. induction l as [|interf l IH]; intros m; [done|].
  by rewrite !bind_entries_cons, bind_entry_union, IH.
Qed.

Lemma all_have_schema_app l1 l2 :
  all_have_schema (l1 ++ l2) ↔ all_have_schema l1 ∧ all_have_schema l2.
Proof.
  unfold all_have_schema. split.
  - intros H. split; intros e n He; apply H; apply elem_of_app; auto.
  - intros [H1 H2] e n [He|He]%elem_of_app; eauto.
Qed.

Lemma parse_model l pcb ccb :
  parse (model l) pcb ccb = forEach (parse_interf pcb ccb) l ∅.
Proof. by rewrite parse_forEach. Qed.

(** X1.  [parse] of a document whose [implements] is the concatenation of
    two lists: when both parts parse, the result is the map of the second
    part laid over the map of the first; when the first part throws, or the
    first parses and the second throws, the whole throws. *)
Theorem parse_app l1 l2 pcb ccb :
  parse (model (l1 ++ l2)) pcb ccb =
  match parse (model l1) pcb ccb, parse (model l2) pcb ccb with
  | Normal m1, Normal m2 => Normal (m2 ∪ m1)
  | Normal _, Throw err => Throw err
  | Throw err, _ => Throw err
  end.
Proof.
  destruct (parse (model l1) pcb ccb) as [m1|[]] eqn:H1.
  - apply parse_Normal in H1 as [Hall1 ->].
    destruct (parse (model l2) pcb ccb) as [m2|[]] eqn:H2.
    + apply parse_Normal in H2 as [Hall2 ->]. apply parse_Normal.
      split; [by apply all_have_schema_app|]. simpl.
      rewrite bind_entries_app.
      pose proof (bind_entries_union pcb ccb l2 ∅ (bind_entries pcb ccb l1 ∅))
        as Hu.
      by rewrite (left_id_L ∅ (∪)) in Hu.
    + apply parse_Throw in H2 as (e & n & He & Hn & Hs). apply parse_Throw.
      exists e, n. split; [|done]. simpl. apply elem_of_app. by right.
  - apply parse_Throw in H1 as (e & n & He & Hn & Hs). apply parse_Throw.
    exists e, n. split; [|done]. simpl. apply elem_of_app. by left.
Qed.

Lemma forEach_parse_interf_filter pcb ccb l res :
  forEach (parse_interf pcb ccb)
    (filter (λ interf, is_Some (instance_key interf)) l) res =
  forEach (parse_interf pcb ccb) l res.
Proof.
  revert res. induction l as [|interf l IH]; intros res; [done|].
  rewrite list.filter_cons. case_decide as Hk; cbn [forEach].
  - destruct (parse_interf pcb ccb interf res); simpl; [apply IH|done].
  - rewrite parse_interf_skip; [apply IH|].
    destruct (instance_key interf); [|done]. destruct Hk. by eexists.
Qed.

(** X2.  Entries of [implements] that are not InterfaceInstances with a
    non-empty name do not matter: dropping them from the document changes
    neither the map returned nor whether [parse] throws. *)
Theorem parse_filter l pcb ccb :
  parse (model (filter (λ interf, is_Some (instance_key interf)) l)) pcb ccb =
  parse (model l) pcb ccb.
Proof. rewrite !parse_model. apply forEach_parse_interf_filter. Qed.

(** ** Where the walk stops, and how long it is *)

(** X3.  [parse] throws at the first InterfaceInstance entry with a
    non-empty name and no schema object: the entries before it are walked
    in full, in document order, the offending entry is entered, and
    nothing after it is visited. *)
Theorem parse_throws_at_first l1 interf l2 n pcb ccb :
  all_have_schema l1 → named_instance interf n → schema interf = None →
  parse_traced (model (l1 ++ interf :: l2)) pcb ccb =
  (visits_from 0 l1 ++ [VisitEntry (length l1)], Throw TypeError).
Proof.
  intros Hall Hn Hs. rewrite parse_traced_forEach. simpl.
  by rewrite (forEach_traced_throws_at _ _ _ _ _ _ n).
Qed.

Lemma parse_throws_at_first_witness :
  parse_traced
    (model [ interface "info" "urn:example:info:1"
               (Some [content_item "Telemetry" "uptime"]);
             {| interf_type := Some "InterfaceInstance";
                interf_name := Some "sensor";
                interf_id := None; schema := None |};
             interface "late" "urn:example:late:1" None ]) None None =
  ([VisitEntry 0; VisitItem 0 0; VisitEntry 1], Throw TypeError).
Proof.
  apply (parse_throws_at_first
           [interface "info" "urn:example:info:1"
              (Some [content_item "Telemetry" "uptime"])]
           {| interf_type := Some "InterfaceInstance";
              interf_name := Some "sensor";
              interf_id := None; schema := None |}
           [interface "late" "urn:example:late:1" None] "sensor" None None).
  - intros e k [->|[]%elem_of_nil]%elem_of_cons _. by eexists.
  - repeat split. discriminate.
  - reflexivity.
Defined.

Lemma visits_of_length i interf : length (visits_of i interf) ≤ S (item_count interf).
Proof.
  unfold visits_of, item_count. destruct (instance_key interf), (schema interf);
    cbn [length]; rewrite ?length_fmap, ?length_seq; lia.
Qed.

Lemma visits_from_length i l :
  length (visits_from i l) ≤ length l + sum_list (item_count <$> l).
Proof.
  revert i. induction l as [|interf l IH]; intros i; [done|].
  cbn [visits_from]. rewrite length_app.
  pose proof (visits_of_length i interf). specialize (IH (S i)).
  change (sum_list (item_count <$> interf :: l))
    with (item_count interf + sum_list (item_count <$> l)).
  cbn [length]. lia.
Qed.

(** X4.  The walk is linear in the document: [parse] invokes its two
    callbacks at most once per entry of [implements] plus once per item of
    the entries' [schema.contents], whether it returns or throws. *)
Theorem parse_visits_bound cm pcb ccb :
  length (parse_traced cm pcb ccb).1 ≤
  length (entries_of cm) + sum_list (item_count <$> entries_of cm).
Proof.
  rewrite parse_traced_forEach.
  destruct (forEach_parse_interf_traced pcb ccb 0 (entries_of cm) ∅)
    as (_ & Hpre & _).
  etrans; [by apply prefix_length|]. apply visits_from_length.
Qed.

(** ** How much a descriptor and a result hold *)

Lemma names_of_length ty items :
  length (names_of ty items) =
  length (filter (λ item, item_type item = Some ty) items).
Proof. unfold names_of. by rewrite length_fmap. Qed.

Lemma descriptor_lengths items :
  length (names_of "Property" items) + length (names_of "Command" items) +
  length (names_of "Telemetry" items) = length (filter recorded items).
Proof.
  rewrite !names_of_length. induction items as [|item items IH]; [done|].
  rewrite !list.filter_cons.
  destruct (decide (item_type item = Some "Property")) as [Hp|Hp];
    destruct (decide (item_type item = Some "Command")) as [Hc|Hc];
    destruct (decide (item_type item = Some "Telemetry")) as [Ht|Ht];
    destruct (decide (recorded item)) as [Hr|Hr];
    simpl; try lia; try congruence; unfold recorded in Hr; tauto.
Qed.

(** X5.  No item is recorded twice: in every descriptor of a map returned
    by [parse], the property, command and telemetry collections together
    hold as many names as the entry it was built from has items of these
    three types, hence no more names than [schema.contents] has items. *)
Theorem parse_collection_sizes cm pcb ccb m k c :
  parse cm pcb ccb = Normal m → m !! k = Some c →
  ∃ interf sch, interf ∈ entries_of cm ∧ named_instance interf k ∧
    schema interf = Some sch ∧
    length (CommonInterface.properties c) + length (CommonInterface.commands c) +
    length (CommonInterface.telemetry c) = length (filter recorded (items_of sch)) ∧
    length (filter recorded (items_of sch)) ≤ length (items_of sch).
Proof.
  intros [_ ->]%parse_Normal
    [Hc|(interf&sch&Hin&Hk&Hs&->)]%bind_entries_lookup_Some.
  { by rewrite lookup_empty in Hc. }
  exists interf, sch. apply instance_key_Some in Hk.
  split; [done|]. split; [done|]. split; [done|]. split.
  - apply descriptor_lengths.
  - apply length_filter.
Qed.

Lemma parse_collection_sizes_witness :
  ∃ interf sch, interf ∈ entries_of doc_device ∧
    named_instance interf "sensor" ∧ schema interf = Some sch ∧
    length ["fanSpeed"] + length ["reboot"] +
    length ["temperature"; "humidity"] =
      length (filter recorded (items_of sch)) ∧
    length (filter recorded (items_of sch)) ≤ length (items_of sch).
Proof.
  apply (parse_collection_sizes doc_device None None
           (bind_entries None None (entries_of doc_device) ∅) "sensor"
           (descriptor None None "sensor" (Some "urn:example:sensor:1")
              sensor_items)).
  - vm_compute. reflexivity.
  - vm_compute. reflexivity.
Defined.

Lemma bind_entries_dom pcb ccb l :
  all_have_schema l →
  dom (bind_entries pcb ccb l ∅) = list_to_set (omap instance_key l).
Proof.
  intros Hall. apply set_eq. intros k.
  rewrite elem_of_dom, elem_of_list_to_set, list_elem_of_omap.
  rewrite bind_entries_lookup_is_Some by done. rewrite lookup_empty. split.
  - intros [[? [=]]|(e & He & Hn)]. exists e. by rewrite instance_key_Some.
  - intros (e & He & Hk). right. exists e. by rewrite <-instance_key_Some.
Qed.

(** X6.  A map returned by [parse] has one key per distinct name, other
    than ['__proto__'], among the InterfaceInstance entries with a
    non-empty name. *)
Theorem parse_size cm pcb ccb m :
  parse cm pcb ccb = Normal m →
  size (own_keys m) =
  length (remove_dups (filter (λ n, n ≠ proto_name)
                         (omap instance_key (entries_of cm)))).
Proof.
  intros [Hall ->]%parse_Normal. unfold own_keys.
  rewrite (bind_entries_dom _ _ _ Hall).
  rewrite <-(size_list_to_set (C := gset string)
               (remove_dups (filter (λ n, n ≠ proto_name)
                               (omap instance_key (entries_of cm)))))
    by apply NoDup_remove_dups.
  f_equal. apply set_eq. intros k.
  rewrite elem_of_difference, elem_of_singleton, !elem_of_list_to_set.
  by rewrite elem_of_remove_dups, list_elem_of_filter, (comm and).
Qed.

Lemma parse_size_witness :
  size (own_keys (bind_entries None None (entries_of doc_duplicate) ∅)) = 1 ∧
  size (own_keys (bind_entries None None (entries_of doc_proto) ∅)) = 0.
Proof.
  split.
  - apply (parse_size doc_duplicate None None). vm_compute. reflexivity.
  - apply (parse_size doc_proto None None). vm_compute. reflexivity.
Defined.

(** ** Reordering the entries *)

Lemma NoDup_omap_later {A B} (f : A → option B) l1 x l2 y :
  NoDup (omap f (l1 ++ x :: l2)) → f x = Some y →
  ∀ x', x' ∈ l2 → f x' ≠ Some y.
Proof.
  rewrite omap_app. intros (_ & _ & Hnd)%list.NoDup_app Hx x' Hx' Hy.
  cbn [omap list_omap] in Hnd. rewrite Hx in Hnd.
  apply list.NoDup_cons in Hnd as [Hnotin _]. apply Hnotin.
  apply list_elem_of_omap. by exists x'.
Qed.

Lemma all_have_schema_Permutation l l' :
  l ≡ₚ l' → all_have_schema l → all_have_schema l'.
Proof.
  intros Hp Hall e n He. apply Hall. by rewrite Hp.
Qed.

Lemma bind_entries_lookup_unique pcb ccb l l' k c :
  l ≡ₚ l' → NoDup (omap instance_key l') →
  bind_entries pcb ccb l ∅ !! k = Some c →
  bind_entries pcb ccb l' ∅ !! k = Some c.
Proof.
  intros Hp Hnd [Hc|(e & sch & He & Hk & Hs & ->)]%bind_entries_lookup_Some.
  { by rewrite lookup_empty in Hc. }
  rewrite Hp in He. apply list_elem_of_split in He as (l1 & l2 & ->).
  apply bind_entries_lookup_last; [done..|].
  by apply (NoDup_omap_later instance_key l1 e).
Qed.

(** X7.  When no two InterfaceInstance entries share a name, the order of
    [implements] does not matter: [parse] returns the same map, or throws
    alike, on any reordering of the entries. *)
Theorem parse_Permutation l l' pcb ccb :
  l ≡ₚ l' → NoDup (omap instance_key l) →
  parse (model l) pcb ccb = parse (model l') pcb ccb.
Proof.
  intros Hp Hnd.
  assert (NoDup (omap instance_key l')) as Hnd' by by rewrite <-Hp.
  destruct (parse (model l) pcb ccb) as [m|[]] eqn:H.
  - apply parse_Normal in H as [Hall ->]. symmetry. apply parse_Normal.
    split; [by apply (all_have_schema_Permutation l)|]. simpl.
    apply map_eq. intros k.
    destruct (bind_entries pcb ccb l' ∅ !! k) as [c|] eqn:Hc.
    + by apply (bind_entries_lookup_unique _ _ l' l).
    + destruct (bind_entries pcb ccb l ∅ !! k) as [c|] eqn:Hc'; [|done].
      apply (bind_entries_lookup_unique _ _ l l') in Hc'; [|done..].
      congruence.
  - symmetry. apply parse_Throw.
    apply parse_Throw in H as (e & n & He & Hn & Hs).
    exists e, n. split; [|done]. simpl in *. by rewrite <-Hp.
Qed.

Lemma parse_Permutation_witness :
  parse doc_device None None =
  parse (model [ interface "info" "urn:example:info:1" None;
                 interface "sensor" "urn:example:sensor:1" (Some sensor_items) ])
    None None.
Proof.
  apply (parse_Permutation
           [ interface "sensor" "urn:example:sensor:1" (Some sensor_items);
             interface "info" "urn:example:info:1" None ]).
  - apply perm_swap.
  - compute_done.
Defined.

(** * Further properties of the store model *)

(** ** The objects of a result *)

Section returns.
Context {A : Type}.
Implicit Types (P : Heap.heap → Prop) (Q : A → Heap.heap → Prop).

Lemma returns_ret P Q (a : A) : (∀ h, P h → Q a h) → returns P (mret a) Q.
Proof. intros HPQ h a' h' HP [= <- <-]. by apply HPQ. Qed.

Lemma returns_raise P Q e : returns P (@Heap.raise A e) Q.
Proof. by intros h a h' _ [=]. Qed.

Lemma returns_stuck P Q : returns P (@Heap.stuck A) Q.
Proof. by intros h a h' _ [=]. Qed.

Lemma returns_bind {B} P (R : B → Heap.heap → Prop) Q
    (m : Heap.M B) (f : B → Heap.M A) :
  returns P m R → (∀ b, returns (R b) (f b) Q) → returns P (m ≫= f) Q.
Proof.
  intros Hm Hf h a h' HP. unfold mbind, Heap.M_bind.
  destruct (m h) as [[b|e|] h1] eqn:Hrun; [|done..].
  apply (Hf b). by apply (Hm h).
Qed.

End returns.

Lemma returns_read P l :
  returns P (Heap.read l) (λ o h, P h ∧ h !! l = Some o).
Proof.
  intros h o h' HP. unfold Heap.read.
  destruct (h !! l) as [o'|] eqn:Hl; [|done]. by intros [= <- <-].
Qed.

Lemma returns_forEach {A} P (f : A → Heap.M unit) l :
  (∀ x, returns P (f x) (λ _, P)) → returns P (Heap.forEach f l) (λ _, P).
Proof.
  intros Hf. induction l as [|x l IH]; [by apply returns_ret|].
  eapply returns_bind; [apply Hf|]. by intros [].
Qed.

Lemma returns_forEach_array P f arr :
  (∀ x, returns P (f x) (λ _, P)) →
  returns P (Heap.forEach_array f arr) (λ _, P).
Proof.
  intros Hf. eapply returns_bind; [apply returns_read|].
  intros []; try apply returns_stuck.
  case_bool_decide.
  - intros h a h' [HP _]. by apply returns_forEach.
  - apply returns_ret. by intros h [HP _].
Qed.

Section own.
Context (h0 : Heap.heap) (res : Heap.loc).

Lemma building_write cInf c h :
  building h0 res cInf h →
  building h0 res cInf (<[cInf := Heap.ODescriptor c]> h).
Proof.
  intros ((Hdom & m & Hres & Hm) & Hnew & [c0 Hc] & Hnot).
  assert (res ≠ cInf) as Hne by congruence.
  split; [split|].
  - rewrite dom_insert_L. by apply union_subseteq_r'.
  - exists m. rewrite lookup_insert_ne by done. split; [done|].
    intros k l Hk. destruct (Hm k l Hk) as (Hl0 & Hl & Huniq).
    split; [done|]. split; [|done].
    rewrite lookup_insert_ne; [done|]. intros <-. by apply (Hnot m k).
  - split; [done|]. split; [by rewrite lookup_insert_eq; eexists|].
    intros m' k. rewrite lookup_insert_ne by done. apply Hnot.
Qed.

Lemma returns_method f cInf :
  returns (building h0 res cInf) (Heap.method f cInf)
          (λ _, building h0 res cInf).
Proof.
  eapply returns_bind; [apply returns_read|].
  intros []; try apply returns_stuck.
  intros h [] h' [Hb _] [= <-]. by apply building_write.
Qed.

Lemma returns_parse_item cInf item :
  returns (building h0 res cInf) (Heap.parse_item cInf item)
          (λ _, building h0 res cInf).
Proof.
  eapply returns_bind; [apply returns_read|].
  intros []; try apply returns_stuck.
  repeat (destruct (_ && _);
          [intros h a h' [Hb _]; by apply returns_method|]).
  apply returns_ret. by intros h [Hb _].
Qed.

Lemma building_alloc c h :
  own_descriptors h0 h res →
  building h0 res (fresh (dom h)) (<[fresh (dom h) := Heap.ODescriptor c]> h).
Proof.
  intros (Hdom & m & Hres & Hm).
  pose proof (is_fresh (dom h)) as Hfresh. set (cInf := fresh (dom h)) in *.
  assert (h !! cInf = None) as Hnone by by apply not_elem_of_dom.
  assert (res ≠ cInf) as Hne by congruence.
  assert (h0 !! cInf = None) as Hnone0.
  { apply not_elem_of_dom. intros Hin. apply Hfresh. by apply Hdom. }
  assert (∀ k, m !! k ≠ Some cInf) as Hnot.
  { intros k Hk. destruct (Hm k cInf Hk) as (_ & [c' Hc'] & _). congruence. }
  split; [split|].
  - rewrite dom_insert_L. by apply union_subseteq_r'.
  - exists m. rewrite lookup_insert_ne by done. split; [done|].
    intros k l Hk. destruct (Hm k l Hk) as (Hl0 & Hl & Huniq).
    split; [done|]. split; [|done].
    rewrite lookup_insert_ne; [done|]. intros <-. by apply (Hnot k).
  - split; [done|]. split; [by rewrite lookup_insert_eq; eexists|].
    intros m' k. rewrite lookup_insert_ne by done.
    intros Hres'. assert (m' = m) as -> by congruence. apply Hnot.
Qed.

Lemma own_descriptors_set_member cInf n m h :
  building h0 res cInf h → h !! res = Some (Heap.OResult m) →
  own_descriptors h0 (<[res := Heap.OResult (<[n := cInf]> m)]> h) res.
Proof.
  intros ((Hdom & m' & Hres' & Hm) & Hnew & [c Hc] & Hnot) Hres.
  assert (m' = m) as -> by congruence.
  assert (res ≠ cInf) as Hne by congruence.
  split; [rewrite dom_insert_L; by apply union_subseteq_r'|].
  exists (<[n := cInf]> m). split; [apply lookup_insert_eq|].
  intros k l Hk. destruct (decide (n = k)) as [->|Hnk].
  - rewrite lookup_insert_eq in Hk. injection Hk as <-.
    split; [done|]. split; [rewrite lookup_insert_ne by done; by eexists|].
    intros k' Hk'. destruct (decide (k = k')) as [|Hkk']; [done|].
    rewrite lookup_insert_ne in Hk' by done. by destruct (Hnot m k').
  - rewrite lookup_insert_ne in Hk by done.
    destruct (Hm k l Hk) as (Hl0 & [c' Hl] & Huniq).
    split; [done|]. split.
    + rewrite lookup_insert_ne by congruence. by eexists.
    + intros k' Hk'. destruct (decide (n = k')) as [->|Hnk'].
      * rewrite lookup_insert_eq in Hk'. injection Hk' as <-.
        by destruct (Hnot m k).
      * rewrite lookup_insert_ne in Hk' by done. by apply Huniq.
Qed.

Lemma returns_set_member cInf n :
  returns (building h0 res cInf) (Heap.set_member res n cInf)
          (λ _ h, own_descriptors h0 h res).
Proof.
  eapply returns_bind; [apply returns_read|].
  intros []; try apply returns_stuck.
  intros h [] h' [Hb Hres] [= <-]. by apply own_descriptors_set_member.
Qed.

Lemma returns_parse_interf pcb ccb interf :
  returns (λ h, own_descriptors h0 h res)
          (Heap.parse_interf pcb ccb res interf)
          (λ _ h, own_descriptors h0 h res).
Proof.
  eapply returns_bind; [apply returns_read|].
  intros [| |ty name id sch| | | |]; try apply returns_stuck.
  destruct (strict_eq _ _); [|apply returns_ret; by intros h [? _]].
  destruct name as [n|]; [|apply returns_ret; by intros h [? _]].
  destruct (_ && _); [|apply returns_ret; by intros h [? _]].
  eapply (returns_bind _ (λ cInf, building h0 res cInf)).
  { intros h cInf h' [Hown _] [= <- <-]. by apply building_alloc. }
  intros cInf.
  eapply (returns_bind _ (λ _, building h0 res cInf));
    [|intros []; apply returns_set_member].
  destruct sch as [s|]; [|apply returns_raise].
  eapply returns_bind; [apply returns_read|].
  intros [| | |[items|]| | |]; try apply returns_stuck.
  - intros h a h' [Hb _]. revert h a h' Hb.
    apply returns_forEach_array. intros item. apply returns_parse_item.
  - apply returns_ret. by intros h [? _].
Qed.

End own.

Lemma returns_parse h0 root pcb ccb :
  returns (λ h, h = h0) (Heap.parse root pcb ccb)
          (λ res h, h0 !! res = None ∧ own_descriptors h0 h res).
Proof.
  unfold Heap.parse.
  eapply (returns_bind _ (λ res h, h0 !! res = None ∧ own_descriptors h0 h res)).
  { intros h r h' Hh Hrun. subst h. unfold Heap.alloc in Hrun.
    injection Hrun as <- <-.
    assert (h0 !! fresh (dom h0) = None) as Hnone
      by apply not_elem_of_dom, is_fresh.
    split; [done|]. split; [rewrite dom_insert_L; by apply union_subseteq_r|].
    exists ∅. split; [apply lookup_insert_eq|]. intros k l Hk.
    by rewrite lookup_empty in Hk. }
  intros res.
  eapply (returns_bind _ (λ _ h, h0 !! res = None ∧ own_descriptors h0 h res));
    [|intros []; by apply returns_ret].
  destruct root as [cm|]; [|by apply returns_ret].
  eapply returns_bind; [apply returns_read|].
  intros [[entries|]| | | | | |]; try apply returns_stuck.
  - intros h a h' [[Hnone Hown] _] Hrun. split; [done|].
    revert h a h' Hown Hrun.
    apply returns_forEach_array. intros interf. apply returns_parse_interf.
  - apply returns_ret. by intros h [? _].
Qed.

(** X8.  The map [parse] returns is a new object, and so is every
    descriptor in it: none of them was in the store before the call, and
    no descriptor is bound to two names or is the map itself. *)
Theorem parse_result_unshared h root pcb ccb res h' :
  Heap.parse root pcb ccb h = (Heap.Ret res, h') →
  h !! res = None ∧
  ∃ m, h' !! res = Some (Heap.OResult m) ∧
    ∀ k l, m !! k = Some l →
      h !! l = None ∧ l ≠ res ∧
      (∃ c, h' !! l = Some (Heap.ODescriptor c)) ∧
      ∀ k', m !! k' = Some l → k' = k.
Proof.
  intros Hrun.
  destruct (returns_parse h root pcb ccb h res h' eq_refl Hrun)
    as (Hnone & _ & m & Hres & Hm).
  split; [done|]. exists m. split; [done|].
  intros k l Hk. destruct (Hm k l Hk) as (Hl0 & [c Hl] & Huniq).
  split; [done|]. split; [congruence|]. split; [by eexists|done].
Qed.

Lemma parse_result_unshared_witness :
  store_device !! 14%positive = None ∧
  ∃ m, (Heap.parse (Some 1%positive) None None store_device).2 !! 14%positive
       = Some (Heap.OResult m) ∧
    ∀ k l, m !! k = Some l →
      store_device !! l = None ∧ l ≠ 14%positive ∧
      (∃ c, (Heap.parse (Some 1%positive) None None store_device).2 !! l
            = Some (Heap.ODescriptor c)) ∧
      ∀ k', m !! k' = Some l → k' = k.
Proof.
  apply (parse_result_unshared store_device (Some 1%positive) None None).
  vm_compute. reflexivity.
Defined.

(** X9.  A later call of [parse] leaves the result of an earlier call as
    it was and shares nothing with it: the two maps are different
    objects, the earlier map and each of its descriptors are unchanged,
    and none of these descriptors is in the later map. *)
Theorem parse_twice h root1 root2 pcb1 ccb1 pcb2 ccb2 res1 h1 res2 h2 :
  Heap.parse root1 pcb1 ccb1 h = (Heap.Ret res1, h1) →
  Heap.parse root2 pcb2 ccb2 h1 = (Heap.Ret res2, h2) →
  res1 ≠ res2 ∧ h2 !! res1 = h1 !! res1 ∧
  ∀ m1 k l, h1 !! res1 = Some (Heap.OResult m1) → m1 !! k = Some l →
    h2 !! l = h1 !! l ∧ l ≠ res2 ∧
    ∀ m2 k2, h2 !! res2 = Some (Heap.OResult m2) → m2 !! k2 ≠ Some l.
Proof.
  intros Hrun1 Hrun2.
  destruct (returns_parse h root1 pcb1 ccb1 h res1 h1 eq_refl Hrun1)
    as (_ & _ & m1 & Hres1 & Hm1).
  destruct (returns_parse h1 root2 pcb2 ccb2 h1 res2 h2 eq_refl Hrun2)
    as (Hnone2 & _ & m2 & Hres2 & Hm2).
  destruct (keeps_parse h1 root2 pcb2 ccb2 h1 (extends_refl h1)) as [Hsub _].
  rewrite Hrun2 in Hsub. simpl in Hsub.
  split; [congruence|]. split.
  { rewrite Hres1. by apply (lookup_weaken h1). }
  intros m1' k l Hm1' Hk. assert (m1' = m1) as -> by congruence.
  destruct (Hm1 k l Hk) as (_ & [c Hl] & _).
  split; [rewrite Hl; by apply (lookup_weaken h1)|]. split; [congruence|].
  intros m2' k2 Hm2' Hk2. assert (m2' = m2) as -> by congruence.
  destruct (Hm2 k2 l Hk2) as (Hl1 & _). congruence.
Qed.

Lemma parse_twice_witness :
  let h1 := (Heap.parse (Some 1%positive) None None store_device).2 in
  let h2 := (Heap.parse (Some 1%positive) (Some 3) None h1).2 in
  14%positive ≠ 17%positive ∧ h2 !! 14%positive = h1 !! 14%positive ∧
  ∀ m1 k l, h1 !! 14%positive = Some (Heap.OResult m1) → m1 !! k = Some l →
    h2 !! l = h1 !! l ∧ l ≠ 17%positive ∧
    ∀ m2 k2, h2 !! 17%positive = Some (Heap.OResult m2) → m2 !! k2 ≠ Some l.
Proof.
  apply (parse_twice store_device (Some 1%positive) (Some 1%positive)
           None None (Some 3) None).
  - vm_compute. reflexivity.
  - vm_compute. reflexivity.
Defined.

(** * A further property of the declared call styles *)

(** X10.  In [IIoTCClient], [IIoTCProperty] and [IIoTCCommand] the
    return type of every overload follows from its callback parameter: an
    overload returning [Promise<Result>] takes no [SendCallback], one
    returning [void] takes a required [SendCallback] as its last
    parameter and nowhere else, and one returning [Promise<Result> | void]
    takes an optional [SendCallback] as its last parameter. *)
Theorem declared_styles :
  Forall style_matches_return
    (Declarations.IIoTCClient ++ Declarations.IIoTCProperty ++
     Declarations.IIoTCCommand).
Proof. compute_done. Qed.
